(** * legate-boost: tree-building helpers of [src/models/tree/build_tree.h]

    A shallow embedding of the index arithmetic of [BinaryTree], of the
    histogram selection ([SelectHistogramNode], [ComputeHistogramBin]), of
    [CalculateLeafValue] and of the [GPair] operators, followed by the
    properties the specification states about them.

    Conventions of the model.
    - [int] is the 32-bit two's-complement integer of the target platforms,
      carried by [Z]; every arithmetic operation is followed by [wrap].
      (Signed overflow has no defined result in C++; the model picks the
      wrap-around value, and every statement that depends on the absence of
      overflow says so in a hypothesis.)
    - [double] is IEEE 754 binary64, carried by [spec_float] with the
      operations of the standard library's [SpecFloat] instantiated at
      [prec = 53] and [emax = 1024] (round to nearest, ties to even; a
      single NaN).
    - [legate::Buffer<double, 2>] is declared by the legate runtime; it is
      represented by its read accessor, a function of the two coordinates. *)

From Stdlib Require Import ZArith Bool Lia.
From Stdlib Require Import Floats.

Local Open Scope Z_scope.

(** ** 32-bit [int] *)

Definition INT_MAX : Z := 2147483647.
Definition INT_MIN : Z := -2147483648.

Definition in_int (z : Z) : Prop := INT_MIN <= z <= INT_MAX.

(** Reduction of a mathematical integer to the two's-complement range. *)
Definition wrap (z : Z) : Z := (z + 2147483648) mod 4294967296 - 2147483648.

Definition int_add (a b : Z) : Z := wrap (a + b).
Definition int_sub (a b : Z) : Z := wrap (a - b).
Definition int_mul (a b : Z) : Z := wrap (a * b).
(** C++ [/] truncates toward zero. *)
Definition int_div (a b : Z) : Z := wrap (Z.quot a b).
(** [a << n]; C++ gives it a meaning only for [0 <= n < 32]. *)
Definition int_shl (a n : Z) : Z := wrap (Z.shiftl a n).

(** ** [class BinaryTree] *)

Module BinaryTree.

Definition Parent (i : Z) : Z := int_div (int_sub i 1) 2.
Definition LeftChild (i : Z) : Z := int_add (int_mul 2 i) 1.
Definition RightChild (i : Z) : Z := int_add (int_mul 2 i) 2.
Definition LevelBegin (level : Z) : Z := int_sub (int_shl 1 level) 1.
Definition NodesInLevel (level : Z) : Z := int_shl 1 level.

End BinaryTree.

(** ** [double] *)

Definition double : Type := spec_float.

Definition dadd : double -> double -> double := SFadd prec emax.
Definition dsub : double -> double -> double := SFsub prec emax.
Definition ddiv : double -> double -> double := SFdiv prec emax.
Definition dneg : double -> double := SFopp.
Definition dlt : double -> double -> bool := SFltb.
Definition deq : double -> double -> bool := SFeqb.

(** The double nearest to an integer (exact for [|z| <= 2^53]). *)
Definition double_of_Z (z : Z) : double := binary_normalize prec emax z 0 false.

Definition is_nan (x : double) : bool :=
  match x with S754_nan => true | _ => false end.

Definition is_zero (x : double) : bool :=
  match x with S754_zero _ => true | _ => false end.

(** [std::isfinite]. *)
Definition is_finite (x : double) : bool :=
  match x with S754_zero _ | S754_finite _ _ _ => true | _ => false end.

(** A well-formed binary64 datum: a finite one has its canonical mantissa
    and exponent, as every value of the machine type has. *)
Definition valid_double (x : double) : bool := SpecFloat.valid_binary prec emax x.

(** The integer [x / 2^k] of a finite double [x] whose exponent is at
    least [k]. *)
Definition F2Z (k : Z) (x : double) : Z :=
  match x with
  | S754_finite s m e => cond_Zopp s (Zpos m) * 2 ^ (e - k)
  | _ => 0
  end.

Definition lower_exponent (x : double) (k : Z) : Z :=
  match x with S754_finite _ _ e => Z.min e k | _ => k end.

(** An exponent below those of [x], [y] and [z]. *)
Definition common_exponent (x y z : double) : Z :=
  lower_exponent x (lower_exponent y (lower_exponent z 0)).

(** The addition [x + y] incurs no rounding: the double sum is finite and
    is the exact sum of the operands. *)
Definition exact_add (x y : double) : Prop :=
  is_finite (dadd x y) = true
  /\ F2Z (common_exponent x y (dadd x y)) (dadd x y)
     = F2Z (common_exponent x y (dadd x y)) x
       + F2Z (common_exponent x y (dadd x y)) y.

(** [inline const double eps = 1e-5]: the binary64 nearest to [1e-5]. *)
Definition eps : double := Prim2SF 0x1.4f8b588e368f1p-17%float.

(** ** [legate::Buffer<double, 2>] *)

Definition Buffer2 : Type := Z -> Z -> double.

(** Hessian sum of a node: column 0 of its row, [node_hessians[{node, 0}]]. *)
Definition hessian_of (t : Buffer2) (node : Z) : double := t node 0.

(** ** Histogram selection *)

Definition SelectHistogramNode (parent : Z) (node_hessians : Buffer2) : Z * Z :=
  let left_child := BinaryTree.LeftChild parent in
  let right_child := BinaryTree.RightChild parent in
  if dlt (hessian_of node_hessians left_child) (hessian_of node_hessians right_child)
  then (left_child, right_child)
  else (right_child, left_child).

Definition ComputeHistogramBin (node_id depth : Z) (node_hessians : Buffer2) : bool :=
  if node_id =? 0 then true
  else if node_id <? 0 then false
  else
    let parent := BinaryTree.Parent node_id in
    let '(histogram_node, subtract_node) := SelectHistogramNode parent node_hessians in
    histogram_node =? node_id.

(** ** Leaf value *)

Definition CalculateLeafValue (G H alpha : double) : double :=
  ddiv (dneg G) (dadd H alpha).

(** ** [struct GPair] *)

Record GPair : Type := mkGPair { grad : double; hess : double }.

(** Default member initialisers: [grad = 0.0], [hess = 0.0]. *)
Definition GPair_default : GPair := mkGPair (S754_zero false) (S754_zero false).

Definition GPair_sub (a b : GPair) : GPair :=
  mkGPair (dsub (grad a) (grad b)) (dsub (hess a) (hess b)).

Definition GPair_add (a b : GPair) : GPair :=
  mkGPair (dadd (grad a) (grad b)) (dadd (hess a) (hess b)).

(** [operator+=], returning the updated left operand. *)
Definition GPair_add_assign (this b : GPair) : GPair :=
  mkGPair (dadd (grad this) (grad b)) (dadd (hess this) (hess b)).

(** Field-wise IEEE [==]. *)
Definition GPair_eqb (a b : GPair) : bool :=
  deq (grad a) (grad b) && deq (hess a) (hess b).

(** Both fields hold finite, well-formed doubles. *)
Definition GPair_finite (a : GPair) : bool :=
  valid_double (grad a) && is_finite (grad a)
  && valid_double (hess a) && is_finite (hess a).

(** Neither field is the negative zero. *)
Definition GPair_no_neg_zero (a : GPair) : Prop :=
  grad a <> S754_zero true /\ hess a <> S754_zero true.

(** Both field additions of [a + b] are exact. *)
Definition GPair_exact_add (a b : GPair) : Prop :=
  exact_add (grad a) (grad b) /\ exact_add (hess a) (hess b).

(** ** Sample data *)

(** A table in which every node has hessian sum 4.0. *)
Definition all_fours : Buffer2 := fun _ _ => double_of_Z 4.

(** A table with hessian sum 3.0 at node 1 and 5.0 everywhere else. *)
Definition three_five : Buffer2 :=
  fun node _ => if node =? 1 then double_of_Z 3 else double_of_Z 5.

(** A table whose entry for node 1 is a NaN, 5.0 elsewhere. *)
Definition nan_at_one : Buffer2 :=
  fun node _ => if node =? 1 then S754_nan else double_of_Z 5.

(** Two tables that agree on column 0 of nodes 1 and 2 and nowhere else. *)
Definition only_column_zero : Buffer2 :=
  fun node col => if col =? 0 then double_of_Z node else S754_nan.
Definition only_first_rows : Buffer2 :=
  fun node _ => if node <=? 2 then double_of_Z node else double_of_Z 7.

(** Statistics of a root with total (10, 10) split into (4, 6) and (6, 4). *)
Definition gp_parent : GPair := mkGPair (double_of_Z 10) (double_of_Z 10).
Definition gp_left : GPair := mkGPair (double_of_Z 4) (double_of_Z 6).
Definition gp_right : GPair := mkGPair (double_of_Z 6) (double_of_Z 4).

(** A small and a large gradient sum: 1 and [2^53]. *)
Definition gp_one : GPair := mkGPair (double_of_Z 1) (double_of_Z 0).
Definition gp_big : GPair := mkGPair (double_of_Z 9007199254740992) (double_of_Z 0).

(** ** Signs of doubles *)

(** [std::signbit]; a NaN is given [false]. *)
Definition sign_bit (x : double) : bool :=
  match x with
  | S754_zero s | S754_infinity s | S754_finite s _ _ => s
  | S754_nan => false
  end.

(** A well-formed double that is [>= 0]: a zero of either sign, a positive
    finite number or [+infinity]. *)
Definition nonneg_double (x : double) : bool :=
  valid_double x && negb (is_nan x) && (is_zero x || negb (sign_bit x)).

(** A strictly positive double whose exponent is at least the smallest one
    of the format. *)
Definition positive_double (x : double) : bool :=
  match x with
  | S754_infinity false => true
  | S754_finite false _ e => emin <=? e
  | _ => false
  end.

(** An integer that every double represents exactly: [|z| < 2^53]. *)
Definition small_int (z : Z) : Prop := - 9007199254740992 < z < 9007199254740992.

(** The pair holding the doubles of two integers. *)
Definition GPair_of_Z (g h : Z) : GPair := mkGPair (double_of_Z g) (double_of_Z h).

(** ** Magnitudes of doubles *)

(** The exponent [b] with [2^(b-1) <= |x| < 2^b] of a finite non-zero
    double (as [frexp] returns it). *)
Definition binary_exponent (x : double) : Z :=
  match x with
  | S754_finite _ m e => Zpos (digits2_pos m) + e
  | _ => 0
  end.

(** The quotient [x / d] cannot overflow: for finite non-zero operands the
    exponent of [x] exceeds that of [d] by at most 1022, so that
    [|x / d| < 2^1023]. *)
Definition quotient_in_range (x d : double) : bool :=
  match x, d with
  | S754_finite _ _ _, S754_finite _ _ _ =>
      binary_exponent x - binary_exponent d <=? 1022
  | _, _ => true
  end.

(** The largest finite double and the smallest positive one. *)
Definition double_max : double := S754_finite false 9007199254740991 971.
Definition double_min : double := S754_finite false 1 (-1074).

(** ** Levels and traversals *)

(** Node [i] lies among the slots of [level]: from [LevelBegin level] up
    to, and excluding, [LevelBegin level + NodesInLevel level]. *)
Definition in_level (level i : Z) : Prop :=
  BinaryTree.LevelBegin level <= i
  < BinaryTree.LevelBegin level + BinaryTree.NodesInLevel level.

(** The ancestor reached from [i] after [n] applications of [Parent]. *)
Definition ancestor (n : nat) (i : Z) : Z := Nat.iter n BinaryTree.Parent i.

(** Number of nodes among [start], [start + 1], ..., [start + n - 1] whose
    histogram is required. *)
Fixpoint count_required (start : Z) (n : nat) (depth : Z) (t : Buffer2) : nat :=
  match n with
  | O => O
  | S k =>
      (if ComputeHistogramBin start depth t then 1 else 0)
      + count_required (start + 1) k depth t
  end%nat.

(** * Properties *)

(** ** Sanity checks of the number models *)

Example wrap_examples :
  wrap 5 = 5 /\ wrap (-7) = -7 /\ wrap (INT_MAX + 1) = INT_MIN /\ wrap (INT_MIN - 1) = INT_MAX.
Proof. repeat split. Qed.

Example double_literals :
  double_of_Z 4 = Prim2SF 4%float /\ double_of_Z (-2) = Prim2SF (-2)%float
  /\ double_of_Z 3 = S754_finite false 6755399441055744 (-51).
Proof. vm_compute. repeat split. Qed.

(** ** Arithmetic on [int] without overflow *)

Lemma wrap_id (z : Z) : in_int z -> wrap z = z.
Proof.
  unfold in_int, INT_MIN, INT_MAX, wrap; intros Hz.
  rewrite Z.mod_small by lia. lia.
Qed.

Lemma wrap_range (z : Z) : in_int (wrap z).
Proof.
  unfold in_int, INT_MIN, INT_MAX, wrap.
  pose proof (Z.mod_pos_bound (z + 2147483648) 4294967296 eq_refl). lia.
Qed.

(** Doubling keeps the wrapped value even: it is twice a 31-bit residue. *)
Lemma wrap_double (p : Z) :
  wrap (2 * p) = 2 * ((p + 1073741824) mod 2147483648 - 1073741824).
Proof.
  unfold wrap.
  replace (2 * p + 2147483648) with (2 * (p + 1073741824)) by lia.
  change 4294967296 with (2 * 2147483648).
  rewrite Z.mul_mod_distr_l by lia. lia.
Qed.

Lemma quot2_double (q : Z) : Z.quot (2 * q) 2 = q.
Proof. rewrite Z.mul_comm. apply Z.quot_mul. lia. Qed.

Lemma quot2_double_succ (q : Z) : 0 <= q -> Z.quot (2 * q + 1) 2 = q.
Proof.
  intros Hq. rewrite Z.quot_div_nonneg by lia.
  symmetry. apply (Z.div_unique (2 * q + 1) 2 q 1); lia.
Qed.

(** Unfold the [int] operators and drop every [wrap] whose argument is
    shown to be in range by linear arithmetic. *)
Ltac int_norm :=
  unfold BinaryTree.Parent, BinaryTree.LeftChild, BinaryTree.RightChild,
         BinaryTree.LevelBegin, BinaryTree.NodesInLevel,
         int_add, int_sub, int_mul, int_div, int_shl;
  repeat match goal with
         | |- context [wrap ?z] =>
             rewrite (wrap_id z) by (unfold in_int, INT_MIN, INT_MAX in *; lia)
         end.

Module BinaryTreeFacts.

Import BinaryTree.

Lemma LeftChild_nowrap (i : Z) :
  0 <= i -> 2 * i + 2 <= INT_MAX -> LeftChild i = 2 * i + 1.
Proof. intros. now int_norm. Qed.

Lemma RightChild_nowrap (i : Z) :
  0 <= i -> 2 * i + 2 <= INT_MAX -> RightChild i = 2 * i + 2.
Proof. intros. now int_norm. Qed.

Lemma Parent_odd (q : Z) :
  0 <= q -> 2 * q + 1 <= INT_MAX -> Parent (2 * q + 1) = q.
Proof.
  intros. int_norm.
  replace (2 * q + 1 - 1) with (2 * q) by lia.
  rewrite quot2_double. apply wrap_id. unfold in_int, INT_MIN, INT_MAX in *. lia.
Qed.

Lemma Parent_even (q : Z) :
  0 <= q -> 2 * q + 2 <= INT_MAX -> Parent (2 * q + 2) = q.
Proof.
  intros. int_norm.
  replace (2 * q + 2 - 1) with (2 * q + 1) by lia.
  rewrite quot2_double_succ by lia.
  apply wrap_id. unfold in_int, INT_MIN, INT_MAX in *. lia.
Qed.

Lemma Parent_positive (i : Z) :
  0 < i -> i <= INT_MAX -> Parent i = Z.quot (i - 1) 2 /\ Parent i = (i - 1) / 2.
Proof.
  intros Hi Hmax. int_norm.
  assert (Hq : Z.quot (i - 1) 2 = (i - 1) / 2) by (apply Z.quot_div_nonneg; lia).
  assert (0 <= (i - 1) / 2 <= i - 1).
  { split; [apply Z.div_pos; lia | apply Z.div_le_upper_bound; lia]. }
  rewrite Hq. rewrite wrap_id by (unfold in_int, INT_MIN, INT_MAX in *; lia).
  split; reflexivity.
Qed.

(** The two child identifiers of any node are distinct and adjacent, and
    when both are non-negative they are [2q+1] and [2q+2] for a node [q]
    whose children do not overflow. *)
Lemma children_shape (p : Z) :
  0 <= LeftChild p -> 0 <= RightChild p ->
  exists q, 0 <= q /\ 2 * q + 2 <= INT_MAX
            /\ LeftChild p = 2 * q + 1 /\ RightChild p = 2 * q + 2.
Proof.
  unfold LeftChild, RightChild, int_add, int_mul.
  rewrite wrap_double.
  set (q := (p + 1073741824) mod 2147483648 - 1073741824).
  assert (Hq : -1073741824 <= q <= 1073741823).
  { subst q. pose proof (Z.mod_pos_bound (p + 1073741824) 2147483648 eq_refl). lia. }
  rewrite (wrap_id (2 * q + 1)) by (unfold in_int, INT_MIN, INT_MAX; lia).
  intros Hl Hr.
  destruct (Z.eq_dec q 1073741823) as [-> | Hne].
  - vm_compute in Hr. exfalso. apply Hr. reflexivity.
  - exists q. unfold INT_MAX.
    rewrite (wrap_id (2 * q + 2)) by (unfold in_int, INT_MIN, INT_MAX; lia).
    repeat split; lia.
Qed.

Lemma children_distinct (p : Z) : LeftChild p <> RightChild p.
Proof.
  unfold LeftChild, RightChild, int_add, int_mul.
  rewrite wrap_double.
  set (q := (p + 1073741824) mod 2147483648 - 1073741824).
  assert (Hq : -1073741824 <= q <= 1073741823).
  { subst q. pose proof (Z.mod_pos_bound (p + 1073741824) 2147483648 eq_refl). lia. }
  rewrite (wrap_id (2 * q + 1)) by (unfold in_int, INT_MIN, INT_MAX; lia).
  destruct (Z.eq_dec q 1073741823) as [-> | Hne].
  - vm_compute. discriminate.
  - rewrite (wrap_id (2 * q + 2)) by (unfold in_int, INT_MIN, INT_MAX; lia). lia.
Qed.

(** C7: for every node [i > 0] whose children [2i+1] and [2i+2] fit in an
    [int], the parent of either child is [i]; [Parent] is the truncating
    integer division [(i - 1) / 2]. *)
Theorem Parent_of_children (i : Z) :
  0 < i -> 2 * i + 2 <= INT_MAX ->
  Parent (LeftChild i) = i /\ Parent (RightChild i) = i
  /\ Parent i = Z.quot (i - 1) 2.
Proof.
  intros Hi Hmax.
  rewrite LeftChild_nowrap, RightChild_nowrap by lia.
  rewrite Parent_odd, Parent_even by lia.
  repeat split. apply Parent_positive; lia.
Qed.

Lemma Parent_of_children_witness :
  0 < 5 /\ 2 * 5 + 2 <= INT_MAX
  /\ Parent (LeftChild 5) = 5 /\ Parent (RightChild 5) = 5
  /\ Parent 5 = Z.quot (5 - 1) 2.
Proof.
  split; [lia | split; [unfold INT_MAX; lia |]].
  apply (Parent_of_children 5); unfold INT_MAX; lia.
Defined.

Lemma pow2_le_INT_MAX (level : Z) :
  0 <= level -> 2 ^ (level + 1) <= INT_MAX -> level <= 29.
Proof.
  intros H0 Hpow.
  destruct (Z_le_gt_dec level 29) as [Hle | Hgt]; [exact Hle | exfalso].
  assert (2 ^ 31 <= 2 ^ (level + 1)) by (apply Z.pow_le_mono_r; lia).
  change (2 ^ 31) with 2147483648 in *. unfold INT_MAX in *. lia.
Qed.

(** C8: for every level [>= 0] with [2^(level+1)] inside the [int] range,
    the next level begins where this one ends:
    [LevelBegin (level+1) = LevelBegin level + NodesInLevel level], with
    [LevelBegin level = 2^level - 1] and [NodesInLevel level = 2^level]. *)
Theorem LevelBegin_next (level : Z) :
  0 <= level -> 2 ^ (level + 1) <= INT_MAX ->
  LevelBegin (int_add level 1) = int_add (LevelBegin level) (NodesInLevel level)
  /\ LevelBegin level = 2 ^ level - 1
  /\ NodesInLevel level = 2 ^ level.
Proof.
  intros H0 Hpow.
  pose proof (pow2_le_INT_MAX level H0 Hpow) as Hlvl.
  assert (Hsucc : 2 ^ (level + 1) = 2 * 2 ^ level)
    by (rewrite <- Z.pow_succ_r by lia; reflexivity).
  assert (Hpos : 0 < 2 ^ level) by (apply Z.pow_pos_nonneg; lia).
  unfold LevelBegin, NodesInLevel, int_shl, int_sub, int_add.
  rewrite (wrap_id (level + 1)) by (unfold in_int, INT_MIN, INT_MAX; lia).
  rewrite !Z.shiftl_1_l, Hsucc.
  repeat match goal with
         | |- context [wrap ?z] =>
             rewrite (wrap_id z) by (unfold in_int, INT_MIN, INT_MAX in *; lia)
         end.
  repeat split. lia.
Qed.

Lemma LevelBegin_next_witness :
  0 <= 3 /\ 2 ^ (3 + 1) <= INT_MAX
  /\ LevelBegin (int_add 3 1) = int_add (LevelBegin 3) (NodesInLevel 3)
  /\ LevelBegin 3 = 2 ^ 3 - 1
  /\ NodesInLevel 3 = 2 ^ 3.
Proof.
  split; [lia | split; [vm_compute; discriminate |]].
  apply (LevelBegin_next 3); [lia | vm_compute; discriminate].
Defined.

End BinaryTreeFacts.

(** ** Comparison of doubles *)

Lemma dlt_compare (x y : double) : dlt x y = true <-> SFcompare x y = Some Lt.
Proof.
  unfold dlt, SFltb. destruct (SFcompare x y) as [[ | | ] | ]; split; congruence.
Qed.

Lemma deq_compare (x y : double) : deq x y = true <-> SFcompare x y = Some Eq.
Proof.
  unfold deq, SFeqb. destruct (SFcompare x y) as [[ | | ] | ]; split; congruence.
Qed.

(** Swapping the operands of a comparison swaps [Lt] and [Gt]. *)
Lemma SFcompare_swap (x y : double) :
  SFcompare y x = option_map CompOpp (SFcompare x y).
Proof.
  destruct x as [sx | sx | | sx mx ex], y as [sy | sy | | sy my ey]; simpl;
    try reflexivity;
    try (destruct sx; reflexivity);
    try (destruct sy; reflexivity);
    try (destruct sx, sy; reflexivity).
  destruct sx, sy; simpl; try reflexivity;
    rewrite (Z.compare_antisym ex ey);
    destruct (ex ?= ey); simpl; try reflexivity;
    rewrite (Pos.compare_cont_antisym mx my Eq); reflexivity.
Qed.

(** Two numbers (neither a NaN) are ordered one way or the other unless
    they compare equal. *)
Lemma double_trichotomy (x y : double) :
  is_nan x = false -> is_nan y = false -> deq x y = false ->
  (dlt x y = true /\ dlt y x = false) \/ (dlt x y = false /\ dlt y x = true).
Proof.
  intros Hx Hy Hne.
  unfold dlt, deq, SFltb, SFeqb in *. rewrite (SFcompare_swap x y).
  destruct (SFcompare x y) as [[ | | ] | ] eqn:Hc; simpl; try discriminate; auto.
  destruct x, y; simpl in *; discriminate.
Qed.

Lemma deq_not_dlt (x y : double) : deq x y = true -> dlt x y = false.
Proof.
  unfold dlt, deq, SFltb, SFeqb.
  destruct (SFcompare x y) as [[ | | ] | ]; congruence.
Qed.

(** ** Histogram selection *)

Section Selection.

Import BinaryTree.

Variable node_hessians : Buffer2.

Lemma SelectHistogramNode_lt (parent : Z) :
  dlt (hessian_of node_hessians (LeftChild parent))
      (hessian_of node_hessians (RightChild parent)) = true ->
  SelectHistogramNode parent node_hessians = (LeftChild parent, RightChild parent).
Proof. unfold SelectHistogramNode, hessian_of. now intros ->. Qed.

Lemma SelectHistogramNode_not_lt (parent : Z) :
  dlt (hessian_of node_hessians (LeftChild parent))
      (hessian_of node_hessians (RightChild parent)) = false ->
  SelectHistogramNode parent node_hessians = (RightChild parent, LeftChild parent).
Proof. unfold SelectHistogramNode, hessian_of. now intros ->. Qed.

(** The selector always answers with the two children, in one order or the
    other. *)
Lemma SelectHistogramNode_cases (parent : Z) :
  SelectHistogramNode parent node_hessians = (LeftChild parent, RightChild parent)
  \/ SelectHistogramNode parent node_hessians = (RightChild parent, LeftChild parent).
Proof.
  unfold SelectHistogramNode.
  destruct (dlt _ _); [left | right]; reflexivity.
Qed.

End Selection.

Module SelectorFacts.

Import BinaryTree BinaryTreeFacts.

(** On a tie between the children of the root (4.0 and 4.0) the selector
    answers (right child, left child) = (2, 1), not (left, right). *)
Lemma SelectHistogramNode_tie_left_fails :
  deq (hessian_of all_fours (LeftChild 0)) (hessian_of all_fours (RightChild 0)) = true
  /\ SelectHistogramNode 0 all_fours = (2, 1)
  /\ SelectHistogramNode 0 all_fours <> (LeftChild 0, RightChild 0).
Proof. vm_compute. repeat split. discriminate. Qed.

(** C1 (amended): when the two children's hessian sums compare equal, the
    selector returns (right child, left child): the right child is the
    histogram node on a tie. *)
Theorem SelectHistogramNode_tie (parent : Z) (node_hessians : Buffer2) :
  deq (hessian_of node_hessians (LeftChild parent))
      (hessian_of node_hessians (RightChild parent)) = true ->
  SelectHistogramNode parent node_hessians = (RightChild parent, LeftChild parent).
Proof.
  intros Htie. apply SelectHistogramNode_not_lt, deq_not_dlt, Htie.
Qed.

Lemma SelectHistogramNode_tie_witness :
  deq (hessian_of all_fours (LeftChild 0)) (hessian_of all_fours (RightChild 0)) = true
  /\ SelectHistogramNode 0 all_fours = (RightChild 0, LeftChild 0).
Proof.
  split; [reflexivity | apply (SelectHistogramNode_tie 0 all_fours); reflexivity].
Defined.

(** C2: when the two children's hessian sums are numbers that differ, the
    histogram node is the child with the strictly smaller sum and the
    subtract node is the other child; with 3.0 on the left and 5.0 on the
    right the answer is (left child, right child). *)
Theorem SelectHistogramNode_smaller (parent : Z) (node_hessians : Buffer2) :
  let H_left := hessian_of node_hessians (LeftChild parent) in
  let H_right := hessian_of node_hessians (RightChild parent) in
  let histogram_node := fst (SelectHistogramNode parent node_hessians) in
  let subtract_node := snd (SelectHistogramNode parent node_hessians) in
  is_nan H_left = false -> is_nan H_right = false -> deq H_left H_right = false ->
  dlt (hessian_of node_hessians histogram_node)
      (hessian_of node_hessians subtract_node) = true
  /\ ((histogram_node = LeftChild parent /\ subtract_node = RightChild parent)
      \/ (histogram_node = RightChild parent /\ subtract_node = LeftChild parent))
  /\ (H_left = double_of_Z 3 -> H_right = double_of_Z 5 ->
      SelectHistogramNode parent node_hessians = (LeftChild parent, RightChild parent)).
Proof.
  intros H_left H_right histogram_node subtract_node Hl Hr Hne.
  subst histogram_node subtract_node.
  destruct (double_trichotomy H_left H_right Hl Hr Hne) as [[Hlt _] | [Hnlt Hgt]].
  - rewrite (SelectHistogramNode_lt node_hessians parent Hlt); simpl. auto.
  - rewrite (SelectHistogramNode_not_lt node_hessians parent Hnlt); simpl.
    repeat split; auto.
    intros E3 E5. fold H_left H_right in Hnlt. rewrite E3, E5 in Hnlt.
    vm_compute in Hnlt. discriminate.
Qed.

Lemma SelectHistogramNode_smaller_witness :
  hessian_of three_five (LeftChild 0) = double_of_Z 3
  /\ hessian_of three_five (RightChild 0) = double_of_Z 5
  /\ SelectHistogramNode 0 three_five = (LeftChild 0, RightChild 0)
  /\ dlt (hessian_of three_five (fst (SelectHistogramNode 0 three_five)))
         (hessian_of three_five (snd (SelectHistogramNode 0 three_five))) = true.
Proof.
  destruct (SelectHistogramNode_smaller 0 three_five) as (Hlt & _ & H35);
    try reflexivity.
  split; [reflexivity | split; [reflexivity | split]].
  - apply H35; reflexivity.
  - exact Hlt.
Defined.

(** For a representable parent, both children have non-negative
    identifiers exactly when [2p+2] does not overflow. *)
Lemma children_exist_iff (p : Z) :
  0 <= p <= INT_MAX ->
  (0 <= LeftChild p /\ 0 <= RightChild p) <-> 2 * p + 2 <= INT_MAX.
Proof.
  intros Hp. split.
  - intros [Hl Hr].
    destruct (Z_le_gt_dec (2 * p + 2) INT_MAX) as [Hle | Hgt]; [exact Hle | exfalso].
    unfold LeftChild, RightChild, int_add, int_mul, wrap, INT_MAX in *.
    Z.div_mod_to_equations. lia.
  - intros Hle. rewrite LeftChild_nowrap, RightChild_nowrap by lia. lia.
Qed.

(** C3: for a parent [p >= 0] both of whose children exist (their
    identifiers are non-negative), exactly one of the two children is
    required: [ComputeHistogramBin] differs on them, whatever the depth and
    the table. *)
Theorem ComputeHistogramBin_children_exclusive
    (p depth : Z) (node_hessians : Buffer2) :
  0 <= p -> 0 <= LeftChild p -> 0 <= RightChild p ->
  xorb (ComputeHistogramBin (LeftChild p) depth node_hessians)
       (ComputeHistogramBin (RightChild p) depth node_hessians) = true.
Proof.
  intros _ Hl Hr.
  destruct (children_shape p Hl Hr) as (q & Hq & Hmax & -> & ->).
  unfold ComputeHistogramBin.
  rewrite Parent_odd, Parent_even by lia.
  replace (2 * q + 1 =? 0) with false by (symmetry; apply Z.eqb_neq; lia).
  replace (2 * q + 2 =? 0) with false by (symmetry; apply Z.eqb_neq; lia).
  replace (2 * q + 1 <? 0) with false by (symmetry; apply Z.ltb_ge; lia).
  replace (2 * q + 2 <? 0) with false by (symmetry; apply Z.ltb_ge; lia).
  destruct (SelectHistogramNode_cases node_hessians q) as [-> | ->].
  - rewrite LeftChild_nowrap by lia. rewrite Z.eqb_refl.
    replace (2 * q + 1 =? 2 * q + 2) with false
      by (symmetry; apply Z.eqb_neq; lia).
    reflexivity.
  - rewrite RightChild_nowrap by lia. rewrite Z.eqb_refl.
    replace (2 * q + 2 =? 2 * q + 1) with false
      by (symmetry; apply Z.eqb_neq; lia).
    reflexivity.
Qed.

Lemma ComputeHistogramBin_children_exclusive_witness :
  0 <= 3 /\ 0 <= LeftChild 3 /\ 0 <= RightChild 3
  /\ xorb (ComputeHistogramBin (LeftChild 3) 2 three_five)
          (ComputeHistogramBin (RightChild 3) 2 three_five) = true.
Proof.
  assert (H3 : 0 <= 3) by lia.
  assert (Hl : 0 <= LeftChild 3) by (vm_compute; discriminate).
  assert (Hr : 0 <= RightChild 3) by (vm_compute; discriminate).
  split; [exact H3 | split; [exact Hl | split; [exact Hr |]]].
  exact (ComputeHistogramBin_children_exclusive 3 2 three_five H3 Hl Hr).
Defined.

(** At the last parent whose left child is representable the right child's
    identifier overflows; there neither child is required when the left
    hessian is not the smaller one. *)
Example ComputeHistogramBin_overflowing_child :
  LeftChild 1073741823 = INT_MAX /\ RightChild 1073741823 = INT_MIN
  /\ ComputeHistogramBin (LeftChild 1073741823) 30 all_fours = false
  /\ ComputeHistogramBin (RightChild 1073741823) 30 all_fours = false.
Proof. vm_compute. repeat split. Qed.

(** C4: the root (identifier 0) is always required, and a negative
    identifier is never required, for every depth and every table. *)
Theorem ComputeHistogramBin_root_and_absent (depth : Z) (node_hessians : Buffer2) :
  ComputeHistogramBin 0 depth node_hessians = true
  /\ forall node_id : Z,
       node_id < 0 -> ComputeHistogramBin node_id depth node_hessians = false.
Proof.
  split; [reflexivity |].
  intros node_id Hneg. unfold ComputeHistogramBin.
  replace (node_id =? 0) with false by (symmetry; apply Z.eqb_neq; lia).
  replace (node_id <? 0) with true by (symmetry; apply Z.ltb_lt; lia).
  reflexivity.
Qed.

Lemma ComputeHistogramBin_root_and_absent_witness :
  ComputeHistogramBin 0 0 all_fours = true
  /\ -1 < 0 /\ ComputeHistogramBin (-1) 0 all_fours = false.
Proof.
  destruct (ComputeHistogramBin_root_and_absent 0 all_fours) as [Hroot Hneg].
  split; [exact Hroot | split; [lia | apply Hneg; lia]].
Defined.

(** C10: the result of [ComputeHistogramBin] does not depend on its [depth]
    argument. *)
Theorem ComputeHistogramBin_depth_irrelevant :
  forall (node_id d1 d2 : Z) (node_hessians : Buffer2),
    ComputeHistogramBin node_id d1 node_hessians
    = ComputeHistogramBin node_id d2 node_hessians.
Proof. intros. reflexivity. Qed.

End SelectorFacts.

(** ** Rounding never produces a NaN from a non-negative mantissa *)

Section RoundingSign.

Lemma shr_1_nonneg (mrs : shr_record) : 0 <= shr_m mrs -> 0 <= shr_m (shr_1 mrs).
Proof.
  destruct mrs as [m r s]; simpl.
  destruct m as [ | [p | p | ] | p]; simpl; lia.
Qed.

Lemma iter_shr_1_nonneg (p : positive) :
  forall mrs, 0 <= shr_m mrs -> 0 <= shr_m (iter_pos shr_1 p mrs).
Proof.
  induction p as [p IH | p IH | ]; simpl; intros mrs Hm.
  - apply IH, IH, shr_1_nonneg, Hm.
  - apply IH, IH, Hm.
  - apply shr_1_nonneg, Hm.
Qed.

Lemma shr_fexp_nonneg (m e : Z) (l : location) :
  0 <= m -> 0 <= shr_m (fst (shr_fexp prec emax m e l)).
Proof.
  intros Hm. unfold shr_fexp, shr.
  assert (H0 : 0 <= shr_m (shr_record_of_loc m l))
    by (destruct l as [ | [ | | ]]; exact Hm).
  destruct (fexp prec emax (Zdigits2 m + e) - e); simpl; auto.
  apply iter_shr_1_nonneg, H0.
Qed.

Lemma round_nearest_even_nonneg (m : Z) (l : location) :
  0 <= m -> 0 <= round_nearest_even m l.
Proof.
  intros Hm. destruct l as [ | [ | | ]]; simpl; try lia.
  destruct (Z.even m); lia.
Qed.

Lemma binary_round_aux_not_nan (s : bool) (m e : Z) (l : location) :
  0 <= m -> is_nan (binary_round_aux prec emax s m e l) = false.
Proof.
  intros Hm. unfold binary_round_aux.
  pose proof (shr_fexp_nonneg m e l Hm) as H1.
  destruct (shr_fexp prec emax m e l) as [mrs' e']; simpl in H1.
  pose proof (shr_fexp_nonneg _ e' loc_Exact
                (round_nearest_even_nonneg _ (loc_of_shr_record mrs') H1)) as H2.
  destruct (shr_fexp prec emax _ e' loc_Exact) as [mrs'' e'']; simpl in H2.
  destruct (shr_m mrs'') as [ | q | q]; simpl;
    [reflexivity | destruct (_ <=? _); reflexivity | lia].
Qed.

Lemma binary_normalize_not_nan (m e : Z) (szero : bool) :
  is_nan (binary_normalize prec emax m e szero) = false.
Proof.
  destruct m as [ | q | q]; simpl; try reflexivity;
    unfold binary_round;
    destruct (shl_align q e _) as [mz ez];
    apply binary_round_aux_not_nan; lia.
Qed.

(** The sign only labels the rounded result. *)
Lemma binary_round_aux_opp (s : bool) (m e : Z) (l : location) :
  SFopp (binary_round_aux prec emax s m e l)
  = binary_round_aux prec emax (negb s) m e l.
Proof.
  unfold binary_round_aux.
  destruct (shr_fexp prec emax m e l) as [mrs' e'].
  destruct (shr_fexp prec emax _ e' loc_Exact) as [mrs'' e''].
  destruct (shr_m mrs'') as [ | q | q]; simpl; try reflexivity.
  destruct (_ <=? _); reflexivity.
Qed.

End RoundingSign.

Lemma dadd_finite_not_nan (x y : double) :
  is_finite x = true -> is_finite y = true -> is_nan (dadd x y) = false.
Proof.
  destruct x as [sx | sx | | sx mx ex], y as [sy | sy | | sy my ey];
    simpl; try discriminate; intros _ _; try reflexivity.
  - destruct sx, sy; reflexivity.
  - apply binary_normalize_not_nan.
Qed.

Lemma SFdiv_core_nonneg (mx my : positive) (ex ey : Z) :
  0 <= fst (fst (SFdiv_core_binary prec emax (Zpos mx) ex (Zpos my) ey)).
Proof.
  unfold SFdiv_core_binary.
  set (s := _ - _ - Z.min _ _).
  set (m' := match s with Z0 => Zpos mx | Zpos _ => Z.shiftl (Zpos mx) s | Zneg _ => 0 end).
  assert (Hm' : 0 <= m').
  { subst m'. destruct s; try lia. apply Z.shiftl_nonneg. lia. }
  pose proof (Z_div_mod m' (Zpos my) eq_refl) as Hdm.
  destruct (Z.div_eucl m' (Zpos my)) as [q r]; simpl.
  destruct Hdm as [Heq Hr]. nia.
Qed.

Lemma ddiv_opp_l (x y : double) : ddiv (dneg x) y = dneg (ddiv x y).
Proof.
  destruct x as [sx | sx | | sx mx ex], y as [sy | sy | | sy my ey];
    simpl; try reflexivity;
    try (destruct sx, sy; reflexivity).
  destruct (SFdiv_core_binary prec emax (Zpos mx) ex (Zpos my) ey) as [[mz ez] lz].
  unfold dneg. rewrite binary_round_aux_opp.
  now rewrite Bool.negb_xorb_l.
Qed.

(** ** Leaf value *)

Module LeafValueFacts.

(** A quotient of a finite numerator by a denominator that is neither a
    NaN nor a zero is a number: zero, finite, or an overflow to infinity. *)
Lemma ddiv_not_nan (x d : double) :
  is_finite x = true -> is_nan d = false -> is_zero d = false ->
  is_nan (ddiv x d) = false.
Proof.
  destruct x as [sx | sx | | sx mx ex], d as [sd | sd | | sd md ed];
    simpl; try discriminate; intros _ _ _; try reflexivity.
  pose proof (SFdiv_core_nonneg mx md ex ed) as Hq.
  destruct (SFdiv_core_binary prec emax (Zpos mx) ex (Zpos md) ed) as [[mz ez] lz].
  apply binary_round_aux_not_nan, Hq.
Qed.

(** Dividing by a zero never gives a finite result. *)
Lemma ddiv_by_zero (x d : double) :
  is_zero d = true -> is_finite (ddiv x d) = false.
Proof.
  destruct x, d; simpl; try discriminate; reflexivity.
Qed.

Lemma dneg_finite (x : double) : is_finite (dneg x) = is_finite x.
Proof. destruct x; reflexivity. Qed.

(** C5: [CalculateLeafValue G H alpha] is [-G / (H + alpha)] in double
    arithmetic (negating the numerator or the quotient gives the same
    double), and [CalculateLeafValue 10 4 1] is [-2.0]. *)
Theorem CalculateLeafValue_formula (G H alpha : double) :
  CalculateLeafValue G H alpha = ddiv (dneg G) (dadd H alpha)
  /\ CalculateLeafValue G H alpha = dneg (ddiv G (dadd H alpha))
  /\ CalculateLeafValue (double_of_Z 10) (double_of_Z 4) (double_of_Z 1)
     = double_of_Z (-2).
Proof.
  split; [reflexivity | split; [apply ddiv_opp_l | reflexivity]].
Qed.

(** The same leaf value computed by the machine's binary64 operations. *)
Example CalculateLeafValue_native :
  CalculateLeafValue (Prim2SF 10%float) (Prim2SF 4%float) (Prim2SF 1%float)
  = Prim2SF (- 10 / (4 + 1))%float
  /\ Prim2SF (- 10 / (4 + 1))%float = Prim2SF (-2)%float.
Proof. vm_compute. split; reflexivity. Qed.

(** With the stability term in the denominator a zero gradient sum gives a
    zero leaf value. *)
Example CalculateLeafValue_eps :
  is_finite (CalculateLeafValue (double_of_Z 0) (dadd (double_of_Z 0) eps) (double_of_Z 0))
  = true
  /\ deq (CalculateLeafValue (double_of_Z 0) (dadd (double_of_Z 0) eps) (double_of_Z 0))
         (double_of_Z 0) = true.
Proof. vm_compute. split; reflexivity. Qed.

(** A non-zero denominator does not exclude overflow: the largest double
    divided by the smallest positive one is an infinity. *)
Example CalculateLeafValue_overflow :
  let G := S754_finite false 9007199254740991 971 in
  let H := S754_finite false 1 (-1074) in
  valid_double G = true /\ valid_double H = true
  /\ is_zero (dadd H (double_of_Z 0)) = false
  /\ CalculateLeafValue G H (double_of_Z 0) = S754_infinity true.
Proof. vm_compute. repeat split. Qed.

(** What violating the denominator contract yields: an infinity for a
    non-zero gradient sum, a NaN for a zero one. *)
Example CalculateLeafValue_zero_denominator :
  CalculateLeafValue (double_of_Z 10) (double_of_Z 0) (double_of_Z 0)
  = S754_infinity true
  /\ CalculateLeafValue (double_of_Z 0) (double_of_Z 0) (double_of_Z 0) = S754_nan.
Proof. split; reflexivity. Qed.

End LeafValueFacts.

(** ** Exact additions can be undone

    When [a + b] incurs no rounding, [(a + b) - b] is computed from the
    exact value of [a], and rounding a value that a canonical double
    represents gives back that double. *)

Section ExactAddition.

(** [Pos.iter xO m d] is [m * 2^d]. *)
Lemma iter_xO_pow (m d : positive) : Zpos (Pos.iter xO m d) = Zpos m * 2 ^ Zpos d.
Proof.
  change (Pos.iter xO m d) with (shift_pos d m).
  rewrite shift_pos_correct, Z.pow_pos_fold. apply Z.mul_comm.
Qed.

Lemma digits_iter_xO (m d : positive) :
  Zpos (digits2_pos (Pos.iter xO m d)) = Zpos (digits2_pos m) + Zpos d.
Proof.
  induction d as [ | d IH] using Pos.peano_ind.
  - simpl. lia.
  - rewrite Pos.iter_succ. simpl. lia.
Qed.

Lemma iter_pos_iter {A : Type} (f : A -> A) (p : positive) :
  forall x, iter_pos f p x = Pos.iter f x p.
Proof.
  induction p as [p IH | p IH | ]; simpl; intros x.
  - now rewrite !IH, <- !Pos.iter_swap.
  - now rewrite !IH.
  - reflexivity.
Qed.

(** Shifting right the bits that a left shift introduced loses nothing. *)
Lemma shr_iter_xO (m d : positive) :
  iter_pos shr_1 d (Build_shr_record (Zpos (Pos.iter xO m d)) false false)
  = Build_shr_record (Zpos m) false false.
Proof.
  rewrite iter_pos_iter.
  induction d as [ | d IH] using Pos.peano_ind.
  - reflexivity.
  - rewrite Pos.iter_succ_r, (Pos.iter_succ d _ xO). simpl. exact IH.
Qed.

Lemma bounded_fexp (m : positive) (e : Z) :
  bounded prec emax m e = true ->
  fexp prec emax (Zpos (digits2_pos m) + e) = e /\ e <= emax - prec.
Proof.
  unfold bounded, canonical_mantissa. intros H.
  apply andb_prop in H. destruct H as [Hc He].
  split; [apply Z.eqb_eq, Hc | apply Z.leb_le, He].
Qed.

(** Second stage of [binary_round_aux] on a canonical mantissa. *)
Lemma round_tail_canonical (s : bool) (m : positive) (e : Z) :
  bounded prec emax m e = true ->
  (let '(mrs, e1) := shr_fexp prec emax (Zpos m) e loc_Exact in
   match shr_m mrs with
   | Z0 => S754_zero s
   | Zpos m1 => if e1 <=? emax - prec then S754_finite s m1 e1 else S754_infinity s
   | Zneg _ => S754_nan
   end) = S754_finite s m e.
Proof.
  intros Hb. destruct (bounded_fexp m e Hb) as [Hf He].
  unfold shr_fexp. simpl Zdigits2. rewrite Hf, Z.sub_diag.
  unfold shr, shr_record_of_loc, shr_m.
  apply Z.leb_le in He. now rewrite He.
Qed.

(** Rounding a canonical mantissa leaves it alone. *)
Lemma binary_round_aux_canonical (s : bool) (m : positive) (e : Z) :
  bounded prec emax m e = true ->
  binary_round_aux prec emax s (Zpos m) e loc_Exact = S754_finite s m e.
Proof.
  intros Hb. destruct (bounded_fexp m e Hb) as [Hf He].
  unfold binary_round_aux. unfold shr_fexp at 1. simpl Zdigits2.
  rewrite Hf, Z.sub_diag. unfold shr at 1. cbv iota beta.
  change (round_nearest_even (shr_m (shr_record_of_loc (Zpos m) loc_Exact))
            (loc_of_shr_record (shr_record_of_loc (Zpos m) loc_Exact)))
    with (Zpos m).
  now apply round_tail_canonical.
Qed.

(** [binary_round] maps every way of writing a canonical mantissa with a
    shifted exponent back to the canonical one. *)
Lemma binary_round_canonical (s : bool) (m' : positive) (e' : Z)
      (m : positive) (e : Z) :
  bounded prec emax m e = true ->
  (e' <= e /\ Zpos m' = Zpos m * 2 ^ (e - e'))
  \/ (e <= e' /\ Zpos m = Zpos m' * 2 ^ (e' - e)) ->
  binary_round prec emax s m' e' = S754_finite s m e.
Proof.
  intros Hb Hshape. destruct (bounded_fexp m e Hb) as [Hf He].
  assert (Hdig : fexp prec emax (Zpos (digits2_pos m') + e') = e).
  { rewrite <- Hf. f_equal.
    destruct Hshape as [[Hle Hm] | [Hle Hm]].
    - destruct (e - e') as [ | d | d] eqn:Hd; try lia.
      + rewrite Z.mul_1_r in Hm. injection Hm as ->. lia.
      + rewrite <- iter_xO_pow in Hm. injection Hm as ->.
        rewrite digits_iter_xO. lia.
    - destruct (e' - e) as [ | d | d] eqn:Hd; try lia.
      + rewrite Z.mul_1_r in Hm. injection Hm as ->. lia.
      + rewrite <- iter_xO_pow in Hm. injection Hm as ->.
        rewrite digits_iter_xO. lia. }
  unfold binary_round. rewrite Hdig. unfold shl_align.
  destruct Hshape as [[Hle Hm] | [Hle Hm]].
  - destruct (e - e') as [ | d | d] eqn:Hd; try lia.
    + rewrite Z.mul_1_r in Hm. injection Hm as ->.
      replace e' with e by lia.
      now apply binary_round_aux_canonical.
    + rewrite <- iter_xO_pow in Hm. injection Hm as ->.
      cbv iota beta.
      unfold binary_round_aux. unfold shr_fexp at 1. simpl Zdigits2.
      rewrite digits_iter_xO.
      replace (Zpos (digits2_pos m) + Zpos d + e') with (Zpos (digits2_pos m) + e) by lia.
      rewrite Hf, Hd. unfold shr at 1. cbv iota beta.
      change (shr_record_of_loc (Zpos (Pos.iter xO m d)) loc_Exact)
        with (Build_shr_record (Zpos (Pos.iter xO m d)) false false).
      rewrite shr_iter_xO.
      change (round_nearest_even (shr_m (Build_shr_record (Zpos m) false false))
                (loc_of_shr_record (Build_shr_record (Zpos m) false false)))
        with (Zpos m).
      replace (e' + Zpos d) with e by lia.
      now apply round_tail_canonical.
  - destruct (e' - e) as [ | d | d] eqn:Hd; try lia.
    + rewrite Z.mul_1_r in Hm. injection Hm as ->.
      replace e' with e by lia. rewrite Z.sub_diag.
      now apply binary_round_aux_canonical.
    + rewrite <- iter_xO_pow in Hm. injection Hm as ->.
      replace (e - e') with (Zneg d) by lia.
      now apply binary_round_aux_canonical.
Qed.

Lemma binary_normalize_canonical (M e' : Z) (s : bool) (m : positive) (e : Z) :
  bounded prec emax m e = true ->
  (e' <= e /\ M = cond_Zopp s (Zpos m) * 2 ^ (e - e'))
  \/ (e <= e' /\ cond_Zopp s (Zpos m) = M * 2 ^ (e' - e)) ->
  binary_normalize prec emax M e' false = S754_finite s m e.
Proof.
  intros Hb Hshape.
  assert (Hpow : forall n, 0 <= n -> 0 < 2 ^ n) by (intros; apply Z.pow_pos_nonneg; lia).
  destruct Hshape as [[Hle HM] | [Hle HM]].
  - pose proof (Hpow (e - e') ltac:(lia)) as HP.
    destruct M as [ | q | q], s; unfold cond_Zopp in HM;
      try (exfalso; nia);
      unfold binary_normalize; apply binary_round_canonical; trivial;
      left; split; trivial; lia.
  - pose proof (Hpow (e' - e) ltac:(lia)) as HP.
    destruct M as [ | q | q], s; unfold cond_Zopp in HM;
      try (exfalso; nia);
      unfold binary_normalize; apply binary_round_canonical; trivial;
      right; split; trivial; lia.
Qed.

(** Two values written at a common scale [k] can be compared at the
    larger of their two exponents. *)
Lemma pow2_rescale (X Y ex ey k : Z) :
  k <= ex -> k <= ey -> X * 2 ^ (ex - k) = Y * 2 ^ (ey - k) ->
  (ex <= ey /\ X = Y * 2 ^ (ey - ex)) \/ (ey <= ex /\ Y = X * 2 ^ (ex - ey)).
Proof.
  intros Hx Hy Heq.
  assert (Hk : 0 < 2 ^ (ex - k)) by (apply Z.pow_pos_nonneg; lia).
  assert (Hk' : 0 < 2 ^ (ey - k)) by (apply Z.pow_pos_nonneg; lia).
  destruct (Z_le_gt_dec ex ey) as [Hle | Hgt]; [left | right]; split; try lia.
  - replace (ey - k) with ((ey - ex) + (ex - k)) in Heq by lia.
    rewrite Z.pow_add_r, Z.mul_assoc in Heq by lia.
    apply Z.mul_reg_r in Heq; lia.
  - replace (ex - k) with ((ex - ey) + (ey - k)) in Heq by lia.
    rewrite Z.pow_add_r, Z.mul_assoc in Heq by lia.
    apply Z.mul_reg_r in Heq; lia.
Qed.

Lemma shl_align_le (m : positive) (e e' : Z) :
  e' <= e -> Zpos (fst (shl_align m e e')) = Zpos m * 2 ^ (e - e').
Proof.
  intros Hle. unfold shl_align.
  destruct (e' - e) as [ | d | d] eqn:Hd; try lia; simpl fst.
  - replace (e - e') with 0 by lia. lia.
  - rewrite iter_xO_pow. replace (e - e') with (Zpos d) by lia. reflexivity.
Qed.

Lemma F2Z_rescale (k k' : Z) (s : bool) (m : positive) (e : Z) :
  k <= k' -> k' <= e ->
  F2Z k (S754_finite s m e) = F2Z k' (S754_finite s m e) * 2 ^ (k' - k).
Proof.
  intros H1 H2. unfold F2Z.
  replace (e - k) with ((e - k') + (k' - k)) by lia.
  rewrite Z.pow_add_r by lia. ring.
Qed.

Lemma cond_Zopp_mul (s : bool) (x y : Z) : cond_Zopp s (x * y) = cond_Zopp s x * y.
Proof. destruct s; simpl; ring. Qed.

Lemma dsub_finite (sz : bool) (mz : positive) (ez : Z)
      (sb : bool) (mb : positive) (eb : Z) :
  dsub (S754_finite sz mz ez) (S754_finite sb mb eb)
  = binary_normalize prec emax
      (F2Z (Z.min ez eb) (S754_finite sz mz ez) - F2Z (Z.min ez eb) (S754_finite sb mb eb))
      (Z.min ez eb) false.
Proof.
  unfold dsub, SFsub, F2Z.
  rewrite !shl_align_le by lia. now rewrite !cond_Zopp_mul.
Qed.

Lemma dsub_self (s : bool) (m : positive) (e : Z) :
  dsub (S754_finite s m e) (S754_finite s m e) = S754_zero false.
Proof. rewrite dsub_finite, Z.sub_diag. reflexivity. Qed.

Lemma dsub_dadd_exact (a b : double) :
  valid_double a = true -> valid_double b = true ->
  is_finite a = true -> is_finite b = true -> a <> S754_zero true ->
  exact_add a b ->
  dsub (dadd a b) b = a.
Proof.
  intros Va Vb Fa Fb Hnz [Fz Hex].
  destruct a as [sa | sa | | sa ma ea]; try discriminate;
    destruct b as [sb | sb | | sb mb eb]; try discriminate.
  - destruct sa; [congruence |]. destruct sb; reflexivity.
  - destruct sa; [congruence |]. simpl dadd. apply dsub_self.
  - reflexivity.
  - unfold valid_double, SpecFloat.valid_binary in Va, Vb.
    destruct (dadd (S754_finite sa ma ea) (S754_finite sb mb eb))
      as [sz | sz | | sz mz ez] eqn:Hz; try discriminate.
    + (* the sum is a zero: the operands are opposite *)
      unfold common_exponent, lower_exponent in Hex.
      set (k := Z.min ea (Z.min eb 0)) in Hex.
      assert (Hk : k <= ea /\ k <= eb) by (subst k; lia). clearbody k.
      unfold F2Z in Hex.
      change (dsub (S754_zero sz) (S754_finite sb mb eb))
        with (S754_finite (negb sb) mb eb).
      assert (Hs : sa = negb sb).
      { assert (0 < Zpos ma * 2 ^ (ea - k))
          by (apply Z.mul_pos_pos; [lia | apply Z.pow_pos_nonneg; lia]).
        assert (0 < Zpos mb * 2 ^ (eb - k))
          by (apply Z.mul_pos_pos; [lia | apply Z.pow_pos_nonneg; lia]).
        destruct sa, sb; unfold cond_Zopp in Hex; try reflexivity; exfalso; lia. }
      subst sa.
      assert (Hm : Zpos ma * 2 ^ (ea - k) = Zpos mb * 2 ^ (eb - k))
        by (destruct sb; unfold cond_Zopp, negb in Hex; lia).
      rewrite <- (binary_round_canonical (negb sb) mb eb mb eb Vb)
        by (left; split; [lia | rewrite Z.sub_diag; lia]).
      apply binary_round_canonical; trivial.
      destruct (pow2_rescale _ _ ea eb k ltac:(lia) ltac:(lia) Hm) as [[Hle E] | [Hle E]];
        [right | left]; split; trivial.
    + (* the sum is finite *)
      rewrite dsub_finite.
      unfold common_exponent, lower_exponent in Hex.
      set (k := Z.min ea (Z.min eb (Z.min ez 0))) in Hex.
      set (e' := Z.min ez eb).
      assert (Hk : k <= ea /\ k <= e' /\ e' <= ez /\ e' <= eb) by (subst k e'; lia).
      clearbody k e'.
      rewrite (F2Z_rescale k e' sz mz ez), (F2Z_rescale k e' sb mb eb) in Hex by lia.
      apply binary_normalize_canonical; trivial.
      set (M := F2Z e' (S754_finite sz mz ez) - F2Z e' (S754_finite sb mb eb)).
      assert (HM : M * 2 ^ (e' - k) = cond_Zopp sa (Zpos ma) * 2 ^ (ea - k)).
      { subst M.
        change (F2Z k (S754_finite sa ma ea))
          with (cond_Zopp sa (Zpos ma) * 2 ^ (ea - k)) in Hex.
        rewrite Z.mul_sub_distr_r. lia. }
      destruct (pow2_rescale _ _ e' ea k ltac:(lia) ltac:(lia) HM) as [[Hle E] | [Hle E]];
        [left | right]; split; trivial.
Qed.

End ExactAddition.

(** ** [GPair] *)

Lemma dadd_comm (x y : double) : dadd x y = dadd y x.
Proof.
  destruct x as [sx | sx | | sx mx ex], y as [sy | sy | | sy my ey];
    try reflexivity;
    try (destruct sx, sy; reflexivity).
  unfold dadd, SFadd. now rewrite (Z.min_comm ex ey), Z.add_comm.
Qed.

Lemma deq_refl (x : double) : is_finite x = true -> deq x x = true.
Proof.
  destruct x as [s | s | | s m e]; try discriminate; intros _; try reflexivity.
  unfold deq, SFeqb, SFcompare.
  now destruct s; rewrite Z.compare_refl, Pos.compare_cont_refl.
Qed.

(** The same round trip up to IEEE [==], which identifies the two zeros. *)
Lemma dsub_dadd_exact_eq (a b : double) :
  valid_double a = true -> valid_double b = true ->
  is_finite a = true -> is_finite b = true ->
  exact_add a b ->
  deq (dsub (dadd a b) b) a = true.
Proof.
  intros Va Vb Fa Fb Hex.
  destruct a as [[ | ] | sa | | sa ma ea] eqn:Ea.
  2, 3, 4, 5: rewrite <- Ea in *;
    rewrite dsub_dadd_exact by (trivial; subst a; discriminate);
    now apply deq_refl.
  destruct b as [[ | ] | sb | | sb mb eb]; try discriminate; try reflexivity.
  simpl dadd. now rewrite dsub_self.
Qed.

Module GPairFacts.

Lemma GPair_add_assign_is_add (a b : GPair) : GPair_add_assign a b = GPair_add a b.
Proof. reflexivity. Qed.

Lemma GPair_add_comm (a b : GPair) : GPair_add a b = GPair_add b a.
Proof.
  unfold GPair_add. now rewrite (dadd_comm (grad a)), (dadd_comm (hess a)).
Qed.

Lemma GPair_finite_fields (a : GPair) :
  GPair_finite a = true ->
  (valid_double (grad a) = true /\ is_finite (grad a) = true)
  /\ (valid_double (hess a) = true /\ is_finite (hess a) = true).
Proof.
  unfold GPair_finite. intros H.
  repeat (apply andb_prop in H; destruct H as [H ?]). auto.
Qed.

(** Adding 1 to [2^53] rounds back to [2^53]; subtracting [2^53] again
    leaves 0, not 1. *)
Lemma GPair_sub_add_inexact :
  GPair_finite gp_one = true /\ GPair_finite gp_big = true
  /\ GPair_sub (GPair_add gp_one gp_big) gp_big = GPair_default
  /\ GPair_sub (GPair_add gp_one gp_big) gp_big <> gp_one
  /\ GPair_eqb (GPair_sub (GPair_add gp_one gp_big) gp_big) gp_one = false.
Proof. vm_compute. repeat split. discriminate. Qed.

(** C9 (amended): addition of pairs is commutative; and when the fields of
    [a] and [b] are finite and both field additions of [a + b] are exact,
    [(a + b) - b] compares equal to [a] field by field, and is the very
    pair [a] unless a field of [a] is the negative zero. *)
Theorem GPair_add_comm_sub_exact (a b : GPair) :
  GPair_add a b = GPair_add b a
  /\ (GPair_finite a = true -> GPair_finite b = true -> GPair_exact_add a b ->
      GPair_eqb (GPair_sub (GPair_add a b) b) a = true
      /\ (GPair_no_neg_zero a -> GPair_sub (GPair_add a b) b = a)).
Proof.
  split; [apply GPair_add_comm |].
  intros Fa Fb [Hg Hh].
  destruct (GPair_finite_fields a Fa) as [[Vag Fag] [Vah Fah]].
  destruct (GPair_finite_fields b Fb) as [[Vbg Fbg] [Vbh Fbh]].
  split.
  - unfold GPair_eqb, GPair_sub, GPair_add; simpl.
    now rewrite !dsub_dadd_exact_eq.
  - intros [Ng Nh]. destruct a as [ga ha]. unfold GPair_sub, GPair_add; simpl in *.
    now rewrite !dsub_dadd_exact.
Qed.

Lemma GPair_add_comm_sub_exact_witness :
  GPair_add gp_left gp_right = gp_parent
  /\ GPair_add gp_left gp_right = GPair_add gp_right gp_left
  /\ GPair_eqb (GPair_sub (GPair_add gp_left gp_right) gp_right) gp_left = true
  /\ GPair_sub (GPair_add gp_left gp_right) gp_right = gp_left.
Proof.
  destruct (GPair_add_comm_sub_exact gp_left gp_right) as [Hcomm Hround].
  destruct Hround as [Heq Hsame];
    [reflexivity | reflexivity | split; split; reflexivity |].
  split; [reflexivity | split; [exact Hcomm | split; [exact Heq |]]].
  apply Hsame. split; discriminate.
Defined.

(** The scenario of the specification: the root total (10, 10) less the
    right child's (6, 4) is the left child's (4, 6), and the selector picks
    the right child, whose hessian sum 4 is the smaller one. *)
Example subtraction_scenario :
  GPair_sub gp_parent gp_right = gp_left
  /\ SelectHistogramNode 0 (fun node _ => if node =? 1 then hess gp_left else hess gp_right)
     = (2, 1).
Proof. split; reflexivity. Qed.

End GPairFacts.

(** * Further properties of the index arithmetic *)

Module LevelFacts.

Import BinaryTree BinaryTreeFacts.

Lemma pow2_succ (l : Z) : 0 <= l -> 2 ^ (l + 1) = 2 * 2 ^ l.
Proof. intros. rewrite <- Z.pow_succ_r by lia. reflexivity. Qed.

Lemma pow2_le_30 (l : Z) : 0 <= l <= 30 -> 1 <= 2 ^ l <= 1073741824.
Proof.
  intros Hl. split.
  - pose proof (Z.pow_pos_nonneg 2 l ltac:(lia) ltac:(lia)). lia.
  - change 1073741824 with (2 ^ 30). apply Z.pow_le_mono_r; lia.
Qed.

(** Up to level 30 neither the shift nor the subtraction wraps. *)
Lemma level_values (l : Z) :
  0 <= l <= 30 -> LevelBegin l = 2 ^ l - 1 /\ NodesInLevel l = 2 ^ l.
Proof.
  intros Hl. pose proof (pow2_le_30 l Hl).
  unfold LevelBegin, NodesInLevel, int_shl, int_sub.
  rewrite Z.shiftl_1_l.
  repeat match goal with
         | |- context [wrap ?z] =>
             rewrite (wrap_id z) by (unfold in_int, INT_MIN, INT_MAX; lia)
         end.
  split; reflexivity.
Qed.

Lemma in_level_pow2 (l i : Z) :
  0 <= l <= 30 -> (in_level l i <-> 2 ^ l <= i + 1 < 2 ^ (l + 1)).
Proof.
  intros Hl. unfold in_level.
  destruct (level_values l Hl) as [-> ->].
  rewrite pow2_succ by lia. lia.
Qed.

Lemma in_level_range (l i : Z) : 0 <= l <= 30 -> in_level l i -> 0 <= i < INT_MAX.
Proof.
  intros Hl Hi. apply in_level_pow2 in Hi; trivial.
  pose proof (pow2_le_30 l Hl). rewrite pow2_succ in Hi by lia.
  unfold INT_MAX. lia.
Qed.

Lemma Parent_in_level (l j : Z) :
  0 <= l <= 29 -> in_level (l + 1) j -> in_level l (Parent j).
Proof.
  intros Hl Hj.
  pose proof (in_level_range (l + 1) j ltac:(lia) Hj) as Hr.
  apply in_level_pow2 in Hj; [| lia]. apply in_level_pow2; [lia |].
  pose proof (pow2_le_30 l ltac:(lia)) as Hp.
  rewrite !pow2_succ in Hj by lia. rewrite pow2_succ in * by lia.
  destruct (Parent_positive j ltac:(lia) ltac:(lia)) as [_ ->].
  Z.div_mod_to_equations. lia.
Qed.

Lemma children_in_level (l i : Z) :
  0 <= l <= 29 -> in_level l i ->
  in_level (l + 1) (LeftChild i) /\ in_level (l + 1) (RightChild i).
Proof.
  intros Hl Hi.
  apply in_level_pow2 in Hi; [| lia].
  pose proof (pow2_le_30 (l + 1) ltac:(lia)) as Hp.
  rewrite pow2_succ in Hi, Hp by lia.
  rewrite LeftChild_nowrap, RightChild_nowrap by (unfold INT_MAX; lia).
  split; apply in_level_pow2; try lia; rewrite !pow2_succ by lia; lia.
Qed.

(** X1: every node other than the root is a child of its parent: an odd
    identifier is the left child of [Parent i], an even one its right
    child. *)
Theorem child_of_Parent (i : Z) :
  0 < i <= INT_MAX ->
  (Z.odd i = true -> LeftChild (Parent i) = i)
  /\ (Z.even i = true -> RightChild (Parent i) = i).
Proof.
  intros Hi.
  destruct (Parent_positive i ltac:(lia) ltac:(lia)) as [_ HP].
  split; intros Hpar.
  - rewrite Z.odd_spec in Hpar. destruct Hpar as [q ->].
    rewrite Parent_odd by lia.
    unfold LeftChild, int_add, int_mul.
    repeat match goal with
           | |- context [wrap ?z] =>
               rewrite (wrap_id z) by (unfold in_int, INT_MIN, INT_MAX in *; lia)
           end.
    reflexivity.
  - rewrite Z.even_spec in Hpar. destruct Hpar as [q ->].
    replace (2 * q) with (2 * (q - 1) + 2) by lia.
    rewrite Parent_even by lia.
    rewrite RightChild_nowrap by lia. reflexivity.
Qed.

Lemma child_of_Parent_witness :
  0 < 5 <= INT_MAX /\ 0 < 6 <= INT_MAX
  /\ LeftChild (Parent 5) = 5 /\ RightChild (Parent 6) = 6.
Proof.
  assert (H5 : 0 < 5 <= INT_MAX) by (unfold INT_MAX; lia).
  assert (H6 : 0 < 6 <= INT_MAX) by (unfold INT_MAX; lia).
  split; [exact H5 | split; [exact H6 | split]].
  - apply (proj1 (child_of_Parent 5 H5)). reflexivity.
  - apply (proj2 (child_of_Parent 6 H6)). reflexivity.
Defined.

(** X2: the levels 0..30 partition the node identifiers: every
    [0 <= i < INT_MAX] lies in exactly one level. *)
Theorem level_partition (i : Z) :
  0 <= i < INT_MAX ->
  exists l, 0 <= l <= 30 /\ in_level l i
            /\ forall l', 0 <= l' <= 30 -> in_level l' i -> l' = l.
Proof.
  intros Hi.
  pose proof (Z.log2_spec (i + 1) ltac:(lia)) as Hlog.
  pose proof (Z.log2_nonneg (i + 1)) as Hnn.
  assert (Hle : Z.log2 (i + 1) <= 30).
  { assert (Z.log2 (i + 1) < 31); [| lia].
    apply Z.log2_lt_pow2; [lia |]. change (2 ^ 31) with 2147483648.
    unfold INT_MAX in Hi. lia. }
  exists (Z.log2 (i + 1)). split; [lia | split].
  - apply in_level_pow2; [lia |].
    replace (Z.log2 (i + 1) + 1) with (Z.succ (Z.log2 (i + 1))) by lia. exact Hlog.
  - intros l' Hl' Hin. apply in_level_pow2 in Hin; trivial.
    symmetry. apply Z.log2_unique; [lia |].
    replace (Z.succ l') with (l' + 1) by lia. exact Hin.
Qed.

Lemma level_partition_witness :
  exists l, 0 <= l <= 30 /\ in_level l 9
            /\ forall l', 0 <= l' <= 30 -> in_level l' 9 -> l' = l.
Proof. apply (level_partition 9). unfold INT_MAX. lia. Defined.

(** X3: the tree structure follows the levels: the children of a node of
    level [l] lie in level [l + 1], and the parent of a node of level
    [l + 1] lies in level [l]. *)
Theorem levels_step (l i : Z) :
  0 <= l <= 29 ->
  (in_level l i ->
   in_level (l + 1) (LeftChild i) /\ in_level (l + 1) (RightChild i))
  /\ (in_level (l + 1) i -> in_level l (Parent i)).
Proof.
  intros Hl. split; [apply children_in_level | apply Parent_in_level]; exact Hl.
Qed.

Lemma levels_step_witness :
  in_level 2 4 /\ in_level 3 (LeftChild 4) /\ in_level 3 (RightChild 4)
  /\ in_level 3 9 /\ in_level 2 (Parent 9).
Proof.
  assert (H2 : 0 <= 2 <= 29) by lia.
  assert (H4 : in_level 2 4) by (vm_compute; split; [discriminate | reflexivity]).
  assert (H9 : in_level (2 + 1) 9) by (vm_compute; split; [discriminate | reflexivity]).
  destruct (levels_step 2 4 H2) as [Hc _].
  destruct (levels_step 2 9 H2) as [_ Hp].
  destruct (Hc H4) as [HL HR].
  split; [exact H4 | split; [exact HL | split; [exact HR | split; [exact H9 |]]]].
  exact (Hp H9).
Defined.

(** X4: a node of level [l] reaches the root after exactly [l] parent
    steps, and no earlier; the root is its own parent, so further steps
    stay there. *)
Theorem ancestor_root (l i : Z) (n : nat) :
  0 <= l <= 30 -> in_level l i ->
  (Z.of_nat n < l -> ancestor n i <> 0)
  /\ (l <= Z.of_nat n -> ancestor n i = 0).
Proof.
  intros Hl Hi.
  assert (Hstep : forall k : nat, Z.of_nat k <= l ->
                    in_level (l - Z.of_nat k) (ancestor k i)).
  { induction k as [ | k IH]; intros Hk.
    - simpl. now rewrite Z.sub_0_r.
    - unfold ancestor. simpl Nat.iter. fold (ancestor k i).
      apply Parent_in_level; [lia |].
      replace (l - Z.of_nat (S k) + 1) with (l - Z.of_nat k) by lia.
      apply IH. lia. }
  assert (Hroot : forall j, in_level 0 j -> j = 0).
  { intros j Hj. apply in_level_pow2 in Hj; [| lia].
    change (2 ^ 0) with 1 in Hj. change (2 ^ (0 + 1)) with 2 in Hj. lia. }
  split.
  - intros Hn H0. specialize (Hstep n ltac:(lia)).
    apply in_level_pow2 in Hstep; [| lia]. rewrite H0 in Hstep.
    pose proof (Z.pow_gt_1 2 (l - Z.of_nat n) ltac:(lia)) as [Hgt _].
    specialize (Hgt ltac:(lia)). lia.
  - intros Hn.
    assert (Hat : ancestor (Z.to_nat l) i = 0).
    { apply Hroot. replace 0 with (l - Z.of_nat (Z.to_nat l)) at 1 by lia.
      apply Hstep. lia. }
    replace n with ((n - Z.to_nat l) + Z.to_nat l)%nat by lia.
    unfold ancestor in *. rewrite Nat.iter_add, Hat.
    clear. induction (n - Z.to_nat l)%nat as [ | k IH]; simpl; [reflexivity |].
    rewrite IH. reflexivity.
Qed.

Lemma ancestor_root_witness :
  in_level 3 9 /\ ancestor 2 9 <> 0 /\ ancestor 3 9 = 0 /\ ancestor 5 9 = 0.
Proof.
  assert (H3 : 0 <= 3 <= 30) by lia.
  assert (H9 : in_level 3 9) by (vm_compute; split; [discriminate | reflexivity]).
  split; [exact H9 | split; [| split]].
  - apply (proj1 (ancestor_root 3 9 2 H3 H9)). simpl. lia.
  - apply (proj2 (ancestor_root 3 9 3 H3 H9)). simpl. lia.
  - apply (proj2 (ancestor_root 3 9 5 H3 H9)). simpl. lia.
Defined.

End LevelFacts.

(** * Further properties of the histogram selection *)

Module RoutingFacts.

Import BinaryTree BinaryTreeFacts.

Lemma dlt_nan (x y : double) :
  is_nan x = true \/ is_nan y = true -> dlt x y = false.
Proof.
  intros [Hx | Hy].
  - destruct x; try discriminate. reflexivity.
  - destruct y; try discriminate. destruct x; reflexivity.
Qed.

(** What the predicate answers on the two children of a parent whose
    children are representable. *)
Lemma ComputeHistogramBin_children (p depth : Z) (t : Buffer2) :
  0 <= p -> 2 * p + 2 <= INT_MAX ->
  ComputeHistogramBin (2 * p + 1) depth t
  = dlt (hessian_of t (2 * p + 1)) (hessian_of t (2 * p + 2))
  /\ ComputeHistogramBin (2 * p + 2) depth t
     = negb (dlt (hessian_of t (2 * p + 1)) (hessian_of t (2 * p + 2))).
Proof.
  intros Hp Hmax. unfold ComputeHistogramBin, SelectHistogramNode.
  rewrite Parent_odd, Parent_even by lia.
  rewrite LeftChild_nowrap, RightChild_nowrap by lia.
  replace (2 * p + 1 =? 0) with false by (symmetry; apply Z.eqb_neq; lia).
  replace (2 * p + 2 =? 0) with false by (symmetry; apply Z.eqb_neq; lia).
  replace (2 * p + 1 <? 0) with false by (symmetry; apply Z.ltb_ge; lia).
  replace (2 * p + 2 <? 0) with false by (symmetry; apply Z.ltb_ge; lia).
  destruct (dlt _ _); rewrite ?Z.eqb_refl; split; try reflexivity;
    apply Z.eqb_neq; lia.
Qed.

(** X5: whatever the table holds, the selector returns the parent's two
    children, each once: the histogram node and the subtract node are
    distinct and are the left and the right child in one order or the
    other. *)
Theorem SelectHistogramNode_is_child_pair (parent : Z) (t : Buffer2) :
  fst (SelectHistogramNode parent t) <> snd (SelectHistogramNode parent t)
  /\ ((fst (SelectHistogramNode parent t) = LeftChild parent
       /\ snd (SelectHistogramNode parent t) = RightChild parent)
      \/ (fst (SelectHistogramNode parent t) = RightChild parent
          /\ snd (SelectHistogramNode parent t) = LeftChild parent)).
Proof.
  pose proof (children_distinct parent) as Hd.
  destruct (SelectHistogramNode_cases t parent) as [-> | ->]; simpl; split; auto.
Qed.

(** X6: a NaN hessian sum on either child makes the comparison false, so
    the right child becomes the histogram node. *)
Theorem SelectHistogramNode_nan (parent : Z) (t : Buffer2) :
  is_nan (hessian_of t (LeftChild parent)) = true
  \/ is_nan (hessian_of t (RightChild parent)) = true ->
  SelectHistogramNode parent t = (RightChild parent, LeftChild parent).
Proof.
  intros Hnan. apply SelectHistogramNode_not_lt, dlt_nan, Hnan.
Qed.

Lemma SelectHistogramNode_nan_witness :
  is_nan (hessian_of nan_at_one (LeftChild 0)) = true
  /\ SelectHistogramNode 0 nan_at_one = (RightChild 0, LeftChild 0).
Proof.
  split; [reflexivity |].
  apply (SelectHistogramNode_nan 0 nan_at_one). left. reflexivity.
Defined.

(** X7: the selection and the predicate read nothing but column 0 of the
    rows of the two siblings: two tables that agree there give the same
    answers, whatever else they hold and whatever the depths passed. *)
Theorem selection_reads_sibling_hessians
    (node_id d1 d2 : Z) (t1 t2 : Buffer2) :
  hessian_of t1 (LeftChild (Parent node_id)) = hessian_of t2 (LeftChild (Parent node_id)) ->
  hessian_of t1 (RightChild (Parent node_id)) = hessian_of t2 (RightChild (Parent node_id)) ->
  SelectHistogramNode (Parent node_id) t1 = SelectHistogramNode (Parent node_id) t2
  /\ ComputeHistogramBin node_id d1 t1 = ComputeHistogramBin node_id d2 t2.
Proof.
  intros HL HR.
  assert (Hsel : SelectHistogramNode (Parent node_id) t1
                 = SelectHistogramNode (Parent node_id) t2).
  { unfold SelectHistogramNode. now rewrite HL, HR. }
  split; [exact Hsel |].
  unfold ComputeHistogramBin. now rewrite Hsel.
Qed.

Lemma selection_reads_sibling_hessians_witness :
  SelectHistogramNode (Parent 1) only_column_zero
  = SelectHistogramNode (Parent 1) only_first_rows
  /\ ComputeHistogramBin 1 0 only_column_zero = ComputeHistogramBin 1 9 only_first_rows.
Proof.
  apply (selection_reads_sibling_hessians 1 0 9 only_column_zero only_first_rows);
    reflexivity.
Defined.

(** X8: for a parent whose children are representable, the left child is
    required exactly when its hessian sum is strictly below the right
    child's, and the right child exactly when it is not. *)
Theorem ComputeHistogramBin_of_children (p depth : Z) (t : Buffer2) :
  0 <= p -> 2 * p + 2 <= INT_MAX ->
  ComputeHistogramBin (LeftChild p) depth t
  = dlt (hessian_of t (LeftChild p)) (hessian_of t (RightChild p))
  /\ ComputeHistogramBin (RightChild p) depth t
     = negb (dlt (hessian_of t (LeftChild p)) (hessian_of t (RightChild p))).
Proof.
  intros Hp Hmax. rewrite LeftChild_nowrap, RightChild_nowrap by lia.
  now apply ComputeHistogramBin_children.
Qed.

Lemma ComputeHistogramBin_of_children_witness :
  0 <= 0 /\ 2 * 0 + 2 <= INT_MAX
  /\ ComputeHistogramBin (LeftChild 0) 1 three_five
     = dlt (hessian_of three_five (LeftChild 0)) (hessian_of three_five (RightChild 0))
  /\ ComputeHistogramBin (RightChild 0) 1 three_five
     = negb (dlt (hessian_of three_five (LeftChild 0))
                 (hessian_of three_five (RightChild 0))).
Proof.
  assert (H0 : 0 <= 0) by lia.
  assert (Hm : 2 * 0 + 2 <= INT_MAX) by (unfold INT_MAX; lia).
  split; [exact H0 | split; [exact Hm |]].
  exact (ComputeHistogramBin_of_children 0 1 three_five H0 Hm).
Defined.

(** Among the [2n] children of [n] consecutive parents exactly [n] are
    required. *)
Lemma count_required_pairs (depth : Z) (t : Buffer2) (n : nat) :
  forall a : Z, 0 <= a -> 2 * (a + Z.of_nat n) <= INT_MAX ->
  count_required (2 * a + 1) (2 * n) depth t = n.
Proof.
  induction n as [ | n IH]; intros a Ha Hmax; [reflexivity |].
  replace (2 * S n)%nat with (S (S (2 * n))) by lia.
  cbn [count_required].
  replace (2 * a + 1 + 1) with (2 * a + 2) by lia.
  replace (2 * a + 2 + 1) with (2 * (a + 1) + 1) by lia.
  rewrite IH by lia.
  destruct (ComputeHistogramBin_children a depth t Ha ltac:(lia)) as [-> ->].
  destruct (dlt _ _); reflexivity.
Qed.

(** X9: at every level from 1 to 30 exactly half of the node slots are
    required, as many as the level above has slots; the other half is left
    to subtraction. *)
Theorem count_required_level (l depth : Z) (t : Buffer2) :
  1 <= l <= 30 ->
  count_required (LevelBegin l) (Z.to_nat (NodesInLevel l)) depth t
  = Z.to_nat (NodesInLevel (l - 1))
  /\ (2 * Z.to_nat (NodesInLevel (l - 1)) = Z.to_nat (NodesInLevel l))%nat.
Proof.
  intros Hl.
  destruct (LevelFacts.level_values l ltac:(lia)) as [-> ->].
  destruct (LevelFacts.level_values (l - 1) ltac:(lia)) as [_ ->].
  pose proof (LevelFacts.pow2_le_30 (l - 1) ltac:(lia)) as Hp.
  pose proof (LevelFacts.pow2_le_30 l ltac:(lia)) as Hp'.
  assert (Hpow : 2 ^ l = 2 * 2 ^ (l - 1)).
  { replace l with ((l - 1) + 1) at 1 by lia. apply LevelFacts.pow2_succ. lia. }
  rewrite Hpow. split; [| lia].
  replace (2 * 2 ^ (l - 1) - 1) with (2 * (2 ^ (l - 1) - 1) + 1) by lia.
  replace (Z.to_nat (2 * 2 ^ (l - 1))) with (2 * Z.to_nat (2 ^ (l - 1)))%nat by lia.
  apply count_required_pairs; unfold INT_MAX; lia.
Qed.

Lemma count_required_level_witness :
  count_required (LevelBegin 2) (Z.to_nat (NodesInLevel 2)) 2 three_five
  = Z.to_nat (NodesInLevel 1).
Proof. apply (count_required_level 2 2 three_five). lia. Defined.

End RoutingFacts.

(** * Further properties of the leaf value *)

Section RoundingMagnitude.

Lemma binary_round_aux_sign (s : bool) (m e : Z) (l : location) :
  is_nan (binary_round_aux prec emax s m e l) = false ->
  sign_bit (binary_round_aux prec emax s m e l) = s.
Proof.
  unfold binary_round_aux.
  destruct (shr_fexp prec emax m e l) as [mrs' e'].
  destruct (shr_fexp prec emax _ e' loc_Exact) as [mrs'' e''].
  destruct (shr_m mrs'') as [ | q | q]; simpl; try reflexivity; try discriminate.
  destruct (_ <=? _); reflexivity.
Qed.

Lemma ddiv_sign (x y : double) :
  is_nan (ddiv x y) = false ->
  sign_bit (ddiv x y) = xorb (sign_bit x) (sign_bit y).
Proof.
  destruct x as [sx | sx | | sx mx ex], y as [sy | sy | | sy my ey];
    simpl; try discriminate; try reflexivity.
  destruct (SFdiv_core_binary prec emax (Zpos mx) ex (Zpos my) ey) as [[mz ez] lz].
  apply binary_round_aux_sign.
Qed.

Lemma digits2_lower (m : positive) : 2 ^ (Zpos (digits2_pos m) - 1) <= Zpos m.
Proof.
  induction m as [m IH | m IH | ]; simpl digits2_pos.
  - rewrite Pos2Z.inj_succ.
    replace (Z.succ (Zpos (digits2_pos m)) - 1) with (Z.succ (Zpos (digits2_pos m) - 1)) by lia.
    rewrite Z.pow_succ_r by lia. lia.
  - rewrite Pos2Z.inj_succ.
    replace (Z.succ (Zpos (digits2_pos m)) - 1) with (Z.succ (Zpos (digits2_pos m) - 1)) by lia.
    rewrite Z.pow_succ_r by lia. lia.
  - reflexivity.
Qed.

Lemma digits2_upper (m : positive) : Zpos m < 2 ^ Zpos (digits2_pos m).
Proof.
  induction m as [m IH | m IH | ]; simpl digits2_pos.
  - rewrite Pos2Z.inj_succ, Z.pow_succ_r by lia. lia.
  - rewrite Pos2Z.inj_succ, Z.pow_succ_r by lia. lia.
  - reflexivity.
Qed.

Lemma shr_1_half (mrs : shr_record) :
  0 <= shr_m mrs -> shr_m (shr_1 mrs) = shr_m mrs / 2.
Proof.
  destruct mrs as [m r s].
  destruct m as [ | [p | p | ] | p]; intros Hm; cbn [shr_1 shr_m] in *;
    try lia; try reflexivity.
  - apply (Z.div_unique (Zpos p~1) 2 (Zpos p) 1); lia.
  - apply (Z.div_unique (Zpos p~0) 2 (Zpos p) 0); lia.
Qed.

Lemma iter_shr_1_div (n : positive) (mrs : shr_record) :
  0 <= shr_m mrs ->
  shr_m (iter_pos shr_1 n mrs) = shr_m mrs / 2 ^ Zpos n.
Proof.
  rewrite iter_pos_iter. revert mrs.
  induction n as [ | n IH] using Pos.peano_ind; intros mrs Hm.
  - simpl Pos.iter. rewrite shr_1_half by exact Hm. reflexivity.
  - rewrite Pos.iter_succ_r, IH by (apply shr_1_nonneg, Hm).
    rewrite shr_1_half by exact Hm.
    rewrite Pos2Z.inj_succ, Z.pow_succ_r by lia.
    rewrite Z.div_div by (try apply Z.pow_pos_nonneg; lia). reflexivity.
Qed.

Lemma shr_fexp_positive (m e : Z) (l : location) :
  0 < m -> emin <= e ->
  0 < shr_m (fst (shr_fexp prec emax m e l))
  /\ emin <= snd (shr_fexp prec emax m e l).
Proof.
  intros Hm He. unfold shr_fexp, shr.
  assert (H0 : shr_m (shr_record_of_loc m l) = m)
    by (destruct l as [ | [ | | ]]; reflexivity).
  destruct m as [ | p | p]; try lia. simpl Zdigits2.
  pose proof (digits2_lower p) as Hlow.
  unfold fexp. fold emin.
  destruct (Z.max (Zpos (digits2_pos p) + e - prec) emin - e) as [ | n | n] eqn:Hn;
    simpl fst; simpl snd; try (rewrite H0; lia).
  rewrite iter_shr_1_div by (rewrite H0; lia). rewrite H0.
  assert (Hshift : Zpos n <= Zpos (digits2_pos p) - 1) by (unfold prec in *; lia).
  split; [| lia].
  apply Z.div_str_pos. split; [apply Z.pow_pos_nonneg; lia |].
  apply Z.le_trans with (2 ^ (Zpos (digits2_pos p) - 1)); [| exact Hlow].
  apply Z.pow_le_mono_r; lia.
Qed.

Lemma round_nearest_even_positive (m : Z) (l : location) :
  0 < m -> 0 < round_nearest_even m l.
Proof.
  intros Hm. destruct l as [ | [ | | ]]; simpl; try lia.
  destruct (Z.even m); lia.
Qed.

Lemma binary_round_aux_positive (m e : Z) (l : location) :
  0 < m -> emin <= e ->
  positive_double (binary_round_aux prec emax false m e l) = true.
Proof.
  intros Hm He. unfold binary_round_aux.
  destruct (shr_fexp_positive m e l Hm He) as [H1 He1].
  destruct (shr_fexp prec emax m e l) as [mrs' e']; simpl in H1, He1.
  destruct (shr_fexp_positive _ e' loc_Exact
              (round_nearest_even_positive _ (loc_of_shr_record mrs') H1) He1)
    as [H2 He2].
  destruct (shr_fexp prec emax _ e' loc_Exact) as [mrs'' e'']; simpl in H2, He2.
  destruct (shr_m mrs'') as [ | q | q]; try lia.
  destruct (_ <=? _); simpl; [apply Z.leb_le, He2 | reflexivity].
Qed.

Lemma binary_normalize_positive (M e : Z) :
  0 < M -> emin <= e ->
  positive_double (binary_normalize prec emax M e false) = true.
Proof.
  intros HM He. destruct M as [ | p | p]; try lia.
  unfold binary_normalize, binary_round, shl_align.
  set (e1 := fexp prec emax (Zpos (digits2_pos p) + e)).
  assert (He1 : emin <= e1) by (subst e1; unfold fexp; fold emin; lia).
  destruct (e1 - e); apply binary_round_aux_positive; lia.
Qed.

Lemma positive_exponent (s : bool) (m : positive) (e : Z) :
  bounded prec emax m e = true -> emin <= e.
Proof.
  intros Hb. destruct (bounded_fexp m e Hb) as [Hf _].
  unfold fexp in Hf. fold emin in Hf. lia.
Qed.

Lemma dadd_positive (x y : double) :
  positive_double x = true -> positive_double y = true ->
  positive_double (dadd x y) = true.
Proof.
  intros Hx Hy.
  destruct x as [sx | [ | ] | | [ | ] mx ex]; try discriminate;
    destruct y as [sy | [ | ] | | [ | ] my ey]; try discriminate;
    try reflexivity; try assumption.
  simpl in Hx, Hy. apply Z.leb_le in Hx, Hy.
  unfold dadd, SFadd.
  apply binary_normalize_positive; [| lia].
  unfold cond_Zopp. lia.
Qed.

Lemma nonneg_cases (x : double) :
  nonneg_double x = true -> is_zero x = true \/ positive_double x = true.
Proof.
  unfold nonneg_double, valid_double.
  destruct x as [s | [ | ] | | [ | ] m e]; simpl; intros Hb;
    rewrite ?andb_true_r, ?andb_false_r in Hb; try discriminate; auto.
  right. apply Z.leb_le. now apply (positive_exponent false m e).
Qed.

Lemma dadd_nonneg_positive (x y : double) :
  nonneg_double x = true -> positive_double y = true ->
  positive_double (dadd x y) = true.
Proof.
  intros Hx Hy. destruct (nonneg_cases x Hx) as [Hz | Hp].
  - destruct x; try discriminate.
    destruct y as [sy | [ | ] | | [ | ] my ey]; try discriminate; exact Hy.
  - now apply dadd_positive.
Qed.

End RoundingMagnitude.

Section QuotientRange.

Lemma Zdigits2_nonneg (a : Z) : 0 <= Zdigits2 a.
Proof. destruct a; simpl; lia. Qed.

Lemma Zdigits2_upper (a : Z) : 0 <= a -> a < 2 ^ Zdigits2 a.
Proof.
  destruct a as [ | p | p]; intros Ha.
  - reflexivity.
  - apply digits2_upper.
  - lia.
Qed.

Lemma Zdigits2_le (a k : Z) : 0 <= k -> 0 <= a < 2 ^ k -> Zdigits2 a <= k.
Proof.
  intros Hk [H0 Ha]. destruct a as [ | p | p]; [exact Hk | | lia]. simpl.
  pose proof (digits2_lower p) as Hlow.
  destruct (Z_le_gt_dec (Zpos (digits2_pos p)) k) as [H | H]; [exact H | exfalso].
  assert (2 ^ k <= 2 ^ (Zpos (digits2_pos p) - 1)) by (apply Z.pow_le_mono_r; lia).
  lia.
Qed.

Lemma shr_fexp_exponent (m e : Z) (l : location) :
  snd (shr_fexp prec emax m e l) = Z.max (fexp prec emax (Zdigits2 m + e)) e.
Proof.
  unfold shr_fexp, shr.
  destruct (fexp prec emax (Zdigits2 m + e) - e) eqn:Hn; simpl snd; lia.
Qed.

(** A right shift never increases the binary exponent of the value. *)
Lemma shr_fexp_digits (m e : Z) (l : location) :
  0 <= m ->
  0 <= shr_m (fst (shr_fexp prec emax m e l))
  /\ Zdigits2 (shr_m (fst (shr_fexp prec emax m e l))) + snd (shr_fexp prec emax m e l)
     <= Z.max (Zdigits2 m + e) (snd (shr_fexp prec emax m e l)).
Proof.
  intros Hm. split; [now apply shr_fexp_nonneg |].
  assert (H0 : shr_m (shr_record_of_loc m l) = m)
    by (destruct l as [ | [ | | ]]; reflexivity).
  unfold shr_fexp, shr.
  destruct (fexp prec emax (Zdigits2 m + e) - e) as [ | n | n] eqn:Hn;
    simpl fst; simpl snd; rewrite ?H0; try lia.
  rewrite iter_shr_1_div, H0 by (rewrite H0; exact Hm).
  pose proof (Zdigits2_upper m Hm) as Hup.
  pose proof (Zdigits2_nonneg m) as Hnn.
  assert (Hp : 0 < 2 ^ Zpos n) by (apply Z.pow_pos_nonneg; lia).
  destruct (Z_le_gt_dec (Zpos n) (Zdigits2 m)) as [Hle | Hgt].
  - assert (Zdigits2 (m / 2 ^ Zpos n) <= Zdigits2 m - Zpos n); [| lia].
    apply Zdigits2_le; [lia |]. split; [apply Z.div_pos; lia |].
    apply Z.div_lt_upper_bound; [lia |].
    rewrite <- Z.pow_add_r by lia.
    replace (Zpos n + (Zdigits2 m - Zpos n)) with (Zdigits2 m) by lia. exact Hup.
  - rewrite Z.div_small; [simpl Zdigits2; lia |].
    split; [lia |]. apply Z.lt_le_trans with (2 ^ Zdigits2 m); [exact Hup |].
    apply Z.pow_le_mono_r; lia.
Qed.

Lemma round_nearest_even_digits (m : Z) (l : location) :
  0 <= m ->
  0 <= round_nearest_even m l
  /\ Zdigits2 (round_nearest_even m l) <= Zdigits2 m + 1.
Proof.
  intros Hm. split; [now apply round_nearest_even_nonneg |].
  pose proof (Zdigits2_upper m Hm) as Hup.
  pose proof (Zdigits2_nonneg m) as Hnn.
  apply Zdigits2_le; [lia |].
  split; [now apply round_nearest_even_nonneg |].
  rewrite Z.pow_add_r, Z.pow_1_r by lia.
  destruct l as [ | [ | | ]]; simpl; try lia.
  destruct (Z.even m); lia.
Qed.

Lemma fexp_le (t b : Z) : t <= b -> -1021 <= b -> fexp prec emax t <= b - 53.
Proof. intros. unfold fexp, SpecFloat.emin, prec, emax. lia. Qed.

(** Rounding a value below [2^1023] gives a zero or a finite double. *)
Lemma binary_round_aux_finite (s : bool) (m e : Z) (l : location) :
  0 <= m -> Zdigits2 m + e <= 1023 -> e <= 970 ->
  is_finite (binary_round_aux prec emax s m e l) = true.
Proof.
  intros Hm Hd He. unfold binary_round_aux.
  destruct (shr_fexp_digits m e l Hm) as [H1 D1].
  pose proof (shr_fexp_exponent m e l) as E1.
  destruct (shr_fexp prec emax m e l) as [mrs' e1]; simpl fst in *; simpl snd in *.
  pose proof (fexp_le (Zdigits2 m + e) 1023 Hd ltac:(lia)) as F1.
  destruct (round_nearest_even_digits (shr_m mrs') (loc_of_shr_record mrs') H1)
    as [H2 D2].
  set (m2 := round_nearest_even (shr_m mrs') (loc_of_shr_record mrs')) in *.
  destruct (shr_fexp_digits m2 e1 loc_Exact H2) as [H3 _].
  pose proof (shr_fexp_exponent m2 e1 loc_Exact) as E2.
  destruct (shr_fexp prec emax m2 e1 loc_Exact) as [mrs'' e2];
    simpl fst in *; simpl snd in *.
  pose proof (fexp_le (Zdigits2 m2 + e1) 1024 ltac:(lia) ltac:(lia)) as F2.
  destruct (shr_m mrs'') as [ | q | q]; try reflexivity; [| lia].
  replace (e2 <=? emax - prec) with true; [reflexivity |].
  symmetry. apply Z.leb_le. unfold emax, prec. lia.
Qed.

(** The integer quotient computed by the division and its exponent. *)
Lemma SFdiv_core_bounds (mx my : positive) (ex ey : Z) :
  let D := Zpos (digits2_pos mx) + ex - (Zpos (digits2_pos my) + ey) in
  let r := SFdiv_core_binary prec emax (Zpos mx) ex (Zpos my) ey in
  0 <= fst (fst r)
  /\ Zdigits2 (fst (fst r)) + snd (fst r) <= Z.max (snd (fst r)) (D + 1)
  /\ snd (fst r) <= fexp prec emax D.
Proof.
  intros D r. split; [apply SFdiv_core_nonneg |].
  subst r. unfold SFdiv_core_binary. cbv zeta.
  change (Zdigits2 (Zpos mx)) with (Zpos (digits2_pos mx)).
  change (Zdigits2 (Zpos my)) with (Zpos (digits2_pos my)).
  change (Zpos (digits2_pos mx) + ex - (Zpos (digits2_pos my) + ey)) with D.
  set (e' := Z.min (fexp prec emax D) (ex - ey)).
  set (s := ex - ey - e').
  assert (Hs : 0 <= s) by (subst s e'; lia).
  set (m' := match s with Z0 => Zpos mx | Zpos _ => Z.shiftl (Zpos mx) s | Zneg _ => 0 end).
  assert (Hm' : m' = Zpos mx * 2 ^ s).
  { subst m'. destruct s as [ | k | k] eqn:Es; try lia.
    apply Z.shiftl_mul_pow2. lia. }
  clearbody m'.
  pose proof (Z_div_mod m' (Zpos my) eq_refl) as Hdm.
  destruct (Z.div_eucl m' (Zpos my)) as [q r]. cbn [fst snd].
  destruct Hdm as [Heq Hr].
  split; [| subst e'; lia].
  pose proof (digits2_upper mx) as Hux. pose proof (digits2_lower my) as Hly.
  assert (Hps : 0 < 2 ^ s) by (apply Z.pow_pos_nonneg; lia).
  assert (Hq0 : 0 <= q) by nia.
  destruct (Z.eq_dec q 0) as [-> | Hq]; [simpl Zdigits2; lia |].
  set (d1 := Zpos (digits2_pos mx)) in *. set (d2 := Zpos (digits2_pos my)) in *.
  assert (Hlt : q * 2 ^ (d2 - 1) < 2 ^ (d1 + s)).
  { rewrite Z.pow_add_r by (subst d1; lia). nia. }
  assert (Hpd : 0 < 2 ^ (d2 - 1)) by (apply Z.pow_pos_nonneg; subst d2; lia).
  assert (HK : d2 - 1 < d1 + s).
  { apply (Z.pow_lt_mono_r_iff 2); [lia | subst d1; lia | nia]. }
  assert (Hqlt : q < 2 ^ (d1 + s - d2 + 1)).
  { apply (Z.mul_lt_mono_pos_r (2 ^ (d2 - 1))); [exact Hpd |].
    rewrite <- Z.pow_add_r by lia.
    replace (d1 + s - d2 + 1 + (d2 - 1)) with (d1 + s) by lia. exact Hlt. }
  pose proof (Zdigits2_le q (d1 + s - d2 + 1) ltac:(lia) ltac:(lia)) as Hdq.
  subst s D. lia.
Qed.

Lemma ddiv_in_range (x d : double) :
  is_finite x = true -> is_nan d = false -> is_zero d = false ->
  quotient_in_range x d = true ->
  is_finite (ddiv x d) = true.
Proof.
  destruct x as [sx | sx | | sx mx ex], d as [sd | sd | | sd md ed];
    try discriminate; intros _ _ _ Hr; try reflexivity.
  unfold quotient_in_range, binary_exponent in Hr. apply Z.leb_le in Hr.
  unfold ddiv, SFdiv.
  destruct (SFdiv_core_bounds mx md ex ed) as (Hq & Hdig & He).
  destruct (SFdiv_core_binary prec emax (Zpos mx) ex (Zpos md) ed) as [[q e'] l].
  simpl fst in *; simpl snd in *.
  set (D := Zpos (digits2_pos mx) + ex - (Zpos (digits2_pos md) + ed)) in *.
  pose proof (fexp_le D 1022 ltac:(lia) ltac:(lia)) as HF.
  apply binary_round_aux_finite; lia.
Qed.

Lemma quotient_in_range_dneg (x d : double) :
  quotient_in_range (dneg x) d = quotient_in_range x d.
Proof. destruct x; reflexivity. Qed.

End QuotientRange.

Module LeafValueRange.

(** With finite operands and a non-zero denominator the result can still
    be an infinity: the largest double divided by the smallest positive one
    overflows. *)
Lemma CalculateLeafValue_overflows_with_nonzero_denominator :
  is_finite double_max = true /\ valid_double double_max = true
  /\ is_finite double_min = true /\ valid_double double_min = true
  /\ is_finite (double_of_Z 0) = true
  /\ is_zero (dadd double_min (double_of_Z 0)) = false
  /\ CalculateLeafValue double_max double_min (double_of_Z 0) = S754_infinity true
  /\ is_finite (CalculateLeafValue double_max double_min (double_of_Z 0)) = false.
Proof. vm_compute. repeat split. Qed.

Lemma ddiv_by_zero_nan (x d : double) :
  is_zero d = true -> is_nan (ddiv x d) = is_zero x || is_nan x.
Proof. destruct x, d; simpl; try discriminate; reflexivity. Qed.

(** C6 (amended): [CalculateLeafValue] always returns the double
    [(-G) / (H + alpha)]; it has no other path.  For finite [G], [H] and
    [alpha] with [H + alpha] not a zero the division is well defined: the
    result is never a NaN, and it is finite whenever the quotient is in
    range (the binary exponent of [G] exceeds that of [H + alpha] by at
    most 1022).  When [H + alpha] is a zero the result is not finite: a NaN
    if [G] is a zero or a NaN, an infinity otherwise. *)
Theorem CalculateLeafValue_failure_mode (G H alpha : double) :
  CalculateLeafValue G H alpha = ddiv (dneg G) (dadd H alpha)
  /\ (is_finite G = true -> is_finite H = true -> is_finite alpha = true ->
      is_zero (dadd H alpha) = false ->
      is_nan (CalculateLeafValue G H alpha) = false
      /\ (quotient_in_range G (dadd H alpha) = true ->
          is_finite (CalculateLeafValue G H alpha) = true))
  /\ (is_zero (dadd H alpha) = true ->
      is_finite (CalculateLeafValue G H alpha) = false
      /\ is_nan (CalculateLeafValue G H alpha) = is_zero G || is_nan G).
Proof.
  split; [reflexivity |]. unfold CalculateLeafValue. split.
  - intros HG HH Ha Hnz.
    assert (HnG : is_finite (dneg G) = true)
      by now rewrite LeafValueFacts.dneg_finite.
    pose proof (dadd_finite_not_nan H alpha HH Ha) as Hnn.
    split.
    + now apply LeafValueFacts.ddiv_not_nan.
    + intros Hr. apply ddiv_in_range; trivial.
      now rewrite quotient_in_range_dneg.
  - intros Hz. split.
    + now apply LeafValueFacts.ddiv_by_zero.
    + rewrite (ddiv_by_zero_nan _ _ Hz). destruct G; reflexivity.
Qed.

Lemma CalculateLeafValue_failure_mode_witness :
  (is_zero (dadd (double_of_Z 4) (double_of_Z 1)) = false
   /\ quotient_in_range (double_of_Z 10) (dadd (double_of_Z 4) (double_of_Z 1)) = true
   /\ is_nan (CalculateLeafValue (double_of_Z 10) (double_of_Z 4) (double_of_Z 1)) = false
   /\ is_finite (CalculateLeafValue (double_of_Z 10) (double_of_Z 4) (double_of_Z 1)) = true)
  /\ (is_zero (dadd (double_of_Z 0) (double_of_Z 0)) = true
      /\ is_finite (CalculateLeafValue (double_of_Z 10) (double_of_Z 0) (double_of_Z 0))
         = false
      /\ is_nan (CalculateLeafValue (double_of_Z 0) (double_of_Z 0) (double_of_Z 0))
         = true).
Proof.
  destruct (CalculateLeafValue_failure_mode
              (double_of_Z 10) (double_of_Z 4) (double_of_Z 1)) as (_ & Hok & _).
  destruct (Hok eq_refl eq_refl eq_refl eq_refl) as [Hnan Hfin].
  destruct (CalculateLeafValue_failure_mode
              (double_of_Z 10) (double_of_Z 0) (double_of_Z 0)) as (_ & _ & Hbad).
  destruct (Hbad eq_refl) as [Hinf _].
  destruct (CalculateLeafValue_failure_mode
              (double_of_Z 0) (double_of_Z 0) (double_of_Z 0)) as (_ & _ & Hbad0).
  destruct (Hbad0 eq_refl) as [_ Hnan0].
  split.
  - split; [reflexivity | split; [reflexivity | split; [exact Hnan |]]].
    apply Hfin. reflexivity.
  - split; [reflexivity | split; [exact Hinf | exact Hnan0]].
Defined.

End LeafValueRange.

Module LeafValueSigns.

Lemma positive_double_number (d : double) :
  positive_double d = true -> is_nan d = false /\ is_zero d = false.
Proof. destruct d as [s | [ | ] | | [ | ] m e]; simpl; try discriminate; auto. Qed.

Lemma eps_positive : positive_double eps = true.
Proof. vm_compute. reflexivity. Qed.

Lemma stabilised_denominator_positive (H alpha : double) :
  nonneg_double H = true -> nonneg_double alpha = true ->
  positive_double (dadd (dadd H eps) alpha) = true.
Proof.
  intros HH Ha. rewrite dadd_comm.
  apply dadd_nonneg_positive; [exact Ha |].
  apply dadd_nonneg_positive; [exact HH | exact eps_positive].
Qed.

(** X10: the leaf value is odd in the gradient sum and symmetric in the
    hessian sum and the regularisation term: negating [G] negates the
    result, and exchanging [H] and [alpha] leaves it unchanged. *)
Theorem CalculateLeafValue_symmetries (G H alpha : double) :
  CalculateLeafValue (dneg G) H alpha = dneg (CalculateLeafValue G H alpha)
  /\ CalculateLeafValue G alpha H = CalculateLeafValue G H alpha.
Proof.
  unfold CalculateLeafValue. split.
  - apply ddiv_opp_l.
  - now rewrite (dadd_comm alpha H).
Qed.

(** X11: whenever the leaf value is a number, its sign bit is the opposite
    of the gradient sum's if the denominator [H + alpha] is positive, and the
    same if it is negative. *)
Theorem CalculateLeafValue_sign (G H alpha : double) :
  is_nan (CalculateLeafValue G H alpha) = false ->
  sign_bit (CalculateLeafValue G H alpha)
  = xorb (negb (sign_bit G)) (sign_bit (dadd H alpha)).
Proof.
  unfold CalculateLeafValue. intros Hn.
  rewrite (ddiv_sign _ _ Hn). f_equal.
  destruct G; try reflexivity. discriminate.
Qed.

Lemma CalculateLeafValue_sign_witness :
  is_nan (CalculateLeafValue (double_of_Z 10) (double_of_Z 4) (double_of_Z 1)) = false
  /\ sign_bit (CalculateLeafValue (double_of_Z 10) (double_of_Z 4) (double_of_Z 1)) = true.
Proof.
  split; [reflexivity |].
  apply (CalculateLeafValue_sign (double_of_Z 10) (double_of_Z 4) (double_of_Z 1)).
  reflexivity.
Defined.

(** X12: adding [eps] to a hessian sum that is [>= 0] prevents the division
    by zero: with [alpha >= 0] the denominator [(H + eps) + alpha] is
    neither a zero nor a NaN, so the leaf value of a finite gradient sum is
    never a NaN, and that of a zero gradient sum is a zero. *)
Theorem eps_prevents_division_by_zero (G H alpha : double) :
  nonneg_double H = true -> nonneg_double alpha = true ->
  is_zero (dadd (dadd H eps) alpha) = false
  /\ is_nan (dadd (dadd H eps) alpha) = false
  /\ (is_finite G = true ->
      is_nan (CalculateLeafValue G (dadd H eps) alpha) = false)
  /\ (is_zero G = true ->
      is_zero (CalculateLeafValue G (dadd H eps) alpha) = true).
Proof.
  intros HH Ha.
  pose proof (stabilised_denominator_positive H alpha HH Ha) as Hpos.
  destruct (positive_double_number _ Hpos) as [Hnan Hzero].
  split; [exact Hzero | split; [exact Hnan | split]].
  - intros HG. unfold CalculateLeafValue.
    apply LeafValueFacts.ddiv_not_nan; trivial.
    now rewrite LeafValueFacts.dneg_finite.
  - intros HG. unfold CalculateLeafValue.
    destruct (dadd (dadd H eps) alpha) as [s | [ | ] | | [ | ] m e];
      try discriminate; destruct G; try discriminate; reflexivity.
Qed.

Lemma eps_prevents_division_by_zero_witness :
  nonneg_double (double_of_Z 0) = true
  /\ is_zero (dadd (dadd (double_of_Z 0) eps) (double_of_Z 0)) = false
  /\ is_nan (CalculateLeafValue (double_of_Z 10) (dadd (double_of_Z 0) eps) (double_of_Z 0))
     = false
  /\ is_zero (CalculateLeafValue (double_of_Z 0) (dadd (double_of_Z 0) eps) (double_of_Z 0))
     = true.
Proof.
  assert (H0 : nonneg_double (double_of_Z 0) = true) by reflexivity.
  destruct (eps_prevents_division_by_zero (double_of_Z 10) (double_of_Z 0) (double_of_Z 0) H0 H0)
    as (Hz & _ & Hn & _).
  destruct (eps_prevents_division_by_zero (double_of_Z 0) (double_of_Z 0) (double_of_Z 0) H0 H0)
    as (_ & _ & _ & Hzero).
  split; [exact H0 | split; [exact Hz | split; [apply Hn | apply Hzero]]]; reflexivity.
Defined.

End LeafValueSigns.

(** * Further properties of [GPair] *)

Section DoubleAlgebra.

Lemma dadd_zero_r (x : double) : x <> S754_zero true -> dadd x (S754_zero false) = x.
Proof. destruct x as [[ | ] | | | ]; intros Hx; try reflexivity. congruence. Qed.

Lemma dsub_zero_r (x : double) : dsub x (S754_zero false) = x.
Proof. destruct x as [[ | ] | | | ]; reflexivity. Qed.

Lemma dsub_same (x : double) :
  dsub x x = if is_finite x then S754_zero false else S754_nan.
Proof.
  destruct x as [[ | ] | [ | ] | | s m e]; try reflexivity.
  apply dsub_self.
Qed.

(** Subtracting is adding the opposite. *)
Lemma dsub_dadd_opp (x y : double) : dsub x y = dadd x (dneg y).
Proof.
  destruct x as [sx | sx | | sx mx ex], y as [sy | sy | | sy my ey];
    try reflexivity;
    destruct sx, sy; reflexivity.
Qed.

Lemma lower_exponent_swap (x y : double) (k : Z) :
  lower_exponent x (lower_exponent y k) = lower_exponent y (lower_exponent x k).
Proof. destruct x, y; simpl; lia. Qed.

Lemma exact_add_comm (x y : double) : exact_add x y -> exact_add y x.
Proof.
  unfold exact_add, common_exponent. rewrite (dadd_comm y x), (lower_exponent_swap y x).
  intros [Hf Heq]. split; [exact Hf | lia].
Qed.

Lemma pow2_split (a b : Z) : a <= b -> b <= 0 -> 2 ^ (- a) = 2 ^ (- b) * 2 ^ (b - a).
Proof. intros. rewrite <- Z.pow_add_r by lia. f_equal. lia. Qed.

(** A non-zero integer below [2^53] in magnitude converts to a canonical
    double of the same value, with a non-positive exponent. *)
Lemma double_of_Z_form (z : Z) :
  z <> 0 -> small_int z ->
  exists s m e,
    double_of_Z z = S754_finite s m e
    /\ bounded prec emax m e = true
    /\ e <= 0
    /\ cond_Zopp s (Zpos m) = z * 2 ^ (- e).
Proof.
  intros Hz [Hlo Hhi].
  assert (Hpos : forall (s : bool) (p : positive), Zpos p < 2 ^ 53 ->
            exists m e,
              binary_round prec emax s p 0 = S754_finite s m e
              /\ bounded prec emax m e = true /\ e <= 0
              /\ Zpos m = Zpos p * 2 ^ (- e)).
  { intros s p Hp.
    pose proof (digits2_lower p) as Hlow.
    assert (Hd : Zpos (digits2_pos p) <= 53).
    { destruct (Z_le_gt_dec (Zpos (digits2_pos p)) 53) as [H | H]; [exact H | exfalso].
      assert (2 ^ 53 <= 2 ^ (Zpos (digits2_pos p) - 1)) by (apply Z.pow_le_mono_r; lia).
      lia. }
    destruct (53 - Zpos (digits2_pos p)) as [ | k | k] eqn:Hk; try lia.
    - exists p, 0.
      assert (Hb : bounded prec emax p 0 = true).
      { unfold bounded, canonical_mantissa, fexp, SpecFloat.emin, prec, emax.
        replace (Zpos (digits2_pos p)) with 53 by lia. reflexivity. }
      split; [| split; [exact Hb | split; [lia | simpl; lia]]].
      apply binary_round_canonical; trivial. left. simpl. lia.
    - exists (Pos.iter xO p k), (- Zpos k).
      assert (Hb : bounded prec emax (Pos.iter xO p k) (- Zpos k) = true).
      { unfold bounded, canonical_mantissa, fexp, SpecFloat.emin, prec, emax.
        rewrite digits_iter_xO.
        apply andb_true_intro. split; [apply Z.eqb_eq | apply Z.leb_le]; lia. }
      assert (Hm : Zpos (Pos.iter xO p k) = Zpos p * 2 ^ (- - Zpos k))
        by (rewrite Z.opp_involutive; apply iter_xO_pow).
      split; [| split; [exact Hb | split; [lia | exact Hm]]].
      apply binary_round_canonical; trivial. right. split; [lia |].
      rewrite Hm. reflexivity. }
  destruct z as [ | p | p]; [congruence | |].
  - destruct (Hpos false p ltac:(change (2 ^ 53) with 9007199254740992; lia))
      as (m & e & Hr & Hb & He & Hm).
    exists false, m, e. repeat split; trivial.
  - destruct (Hpos true p ltac:(change (2 ^ 53) with 9007199254740992; lia))
      as (m & e & Hr & Hb & He & Hm).
    exists true, m, e. repeat split; trivial.
    unfold cond_Zopp. rewrite Hm. lia.
Qed.

Lemma binary_round_opp (s : bool) (m : positive) (e : Z) :
  SFopp (binary_round prec emax s m e) = binary_round prec emax (negb s) m e.
Proof.
  unfold binary_round. destruct (shl_align m e _) as [mz ez].
  apply binary_round_aux_opp.
Qed.

Lemma double_of_Z_opp (z : Z) : z <> 0 -> double_of_Z (- z) = dneg (double_of_Z z).
Proof.
  destruct z as [ | p | p]; [congruence | |]; intros _;
    unfold double_of_Z, dneg; cbn [Z.opp binary_normalize];
    now rewrite binary_round_opp.
Qed.

(** Sums of small integers are computed exactly. *)
Lemma dadd_double_of_Z (x y : Z) :
  small_int x -> small_int y -> small_int (x + y) ->
  dadd (double_of_Z x) (double_of_Z y) = double_of_Z (x + y).
Proof.
  intros Hx Hy Hxy.
  destruct (Z.eq_dec x 0) as [-> | Hx0].
  { destruct (Z.eq_dec y 0) as [-> | Hy0]; [reflexivity |].
    rewrite Z.add_0_l.
    destruct (double_of_Z_form y Hy0 Hy) as (s & m & e & -> & _). reflexivity. }
  destruct (Z.eq_dec y 0) as [-> | Hy0].
  { rewrite Z.add_0_r.
    destruct (double_of_Z_form x Hx0 Hx) as (s & m & e & -> & _). reflexivity. }
  destruct (double_of_Z_form x Hx0 Hx) as (sx & mx & ex & -> & _ & Hex & Hmx).
  destruct (double_of_Z_form y Hy0 Hy) as (sy & my & ey & -> & _ & Hey & Hmy).
  unfold dadd, SFadd.
  rewrite !shl_align_le by lia. rewrite !cond_Zopp_mul, Hmx, Hmy.
  set (ez := Z.min ex ey).
  assert (Hez : ez <= ex /\ ez <= ey) by (subst ez; lia). clearbody ez.
  assert (HM : x * 2 ^ (- ex) * 2 ^ (ex - ez) + y * 2 ^ (- ey) * 2 ^ (ey - ez)
               = (x + y) * 2 ^ (- ez)).
  { rewrite Z.mul_add_distr_r.
    rewrite (pow2_split ez ex) at 1 by lia.
    rewrite (pow2_split ez ey) by lia. ring. }
  rewrite HM.
  destruct (Z.eq_dec (x + y) 0) as [H0 | Hne].
  { rewrite H0. reflexivity. }
  destruct (double_of_Z_form (x + y) Hne Hxy) as (s & m & e & -> & Hb & He & Hm).
  apply binary_normalize_canonical; trivial. rewrite Hm.
  destruct (Z_le_gt_dec ez e) as [Hle | Hgt]; [left | right]; split; try lia.
  - rewrite (pow2_split ez e) by lia. ring.
  - rewrite (pow2_split e ez) by lia. ring.
Qed.

Lemma dsub_double_of_Z (x y : Z) :
  small_int x -> small_int y -> small_int (x - y) ->
  dsub (double_of_Z x) (double_of_Z y) = double_of_Z (x - y).
Proof.
  intros Hx Hy Hxy.
  destruct (Z.eq_dec y 0) as [-> | Hy0].
  - rewrite Z.sub_0_r. apply dsub_zero_r.
  - rewrite dsub_dadd_opp, <- double_of_Z_opp by exact Hy0.
    apply dadd_double_of_Z; unfold small_int in *; trivial; lia.
Qed.

End DoubleAlgebra.

Module GPairAlgebra.

(** X13: the default pair (0, 0) is neutral: subtracting it changes
    nothing, and adding it on either side, by [operator+] or by
    [operator+=] starting from it, gives back a pair that has no field
    [-0.0]. *)
Theorem GPair_default_neutral (a : GPair) :
  GPair_sub a GPair_default = a
  /\ (GPair_no_neg_zero a ->
      GPair_add a GPair_default = a
      /\ GPair_add GPair_default a = a
      /\ GPair_add_assign GPair_default a = a).
Proof.
  destruct a as [g h]. unfold GPair_sub, GPair_add, GPair_add_assign, GPair_default.
  cbn [grad hess]. split.
  - now rewrite !dsub_zero_r.
  - intros [Hg Hh]. cbn [grad hess] in Hg, Hh.
    rewrite !(dadd_comm (S754_zero false)), !dadd_zero_r by assumption. auto.
Qed.

Lemma GPair_default_neutral_witness :
  GPair_sub gp_left GPair_default = gp_left
  /\ GPair_add gp_left GPair_default = gp_left
  /\ GPair_add GPair_default gp_left = gp_left
  /\ GPair_add_assign GPair_default gp_left = gp_left.
Proof.
  destruct (GPair_default_neutral gp_left) as [Hsub Hadd].
  split; [exact Hsub |]. apply Hadd. split; discriminate.
Defined.

(** X14: a pair less itself is the zero pair in every field that is
    finite, and a NaN in every field that is an infinity or a NaN. *)
Theorem GPair_sub_self (a : GPair) :
  GPair_sub a a
  = mkGPair (if is_finite (grad a) then S754_zero false else S754_nan)
            (if is_finite (hess a) then S754_zero false else S754_nan).
Proof. unfold GPair_sub. now rewrite !dsub_same. Qed.

(** X15: the subtraction trick in both directions: when the parent's
    statistics are the sum of its children's and both field additions are
    exact, the parent less either child is the other child. *)
Theorem subtraction_trick (left right : GPair) :
  GPair_finite left = true -> GPair_finite right = true ->
  GPair_no_neg_zero left -> GPair_no_neg_zero right ->
  GPair_exact_add left right ->
  GPair_sub (GPair_add left right) right = left
  /\ GPair_sub (GPair_add left right) left = right.
Proof.
  intros Fl Fr [Nlg Nlh] [Nrg Nrh] [Eg Eh].
  destruct (GPairFacts.GPair_finite_fields left Fl) as [[Vlg Flg] [Vlh Flh]].
  destruct (GPairFacts.GPair_finite_fields right Fr) as [[Vrg Frg] [Vrh Frh]].
  destruct left as [lg lh], right as [rg rh].
  unfold GPair_sub, GPair_add, GPair_no_neg_zero in *; cbn [grad hess] in *. split.
  - now rewrite !dsub_dadd_exact.
  - rewrite (dadd_comm lg rg), (dadd_comm lh rh).
    now rewrite !dsub_dadd_exact by (trivial; now apply exact_add_comm).
Qed.

Lemma subtraction_trick_witness :
  GPair_add gp_left gp_right = gp_parent
  /\ GPair_sub (GPair_add gp_left gp_right) gp_right = gp_left
  /\ GPair_sub (GPair_add gp_left gp_right) gp_left = gp_right.
Proof.
  split; [reflexivity |].
  apply (subtraction_trick gp_left gp_right);
    try reflexivity; split; try discriminate; split; reflexivity.
Defined.

(** X16: on integer-valued statistics below [2^53] in magnitude the
    operators are exact: the sum and the difference of two such pairs are
    the pairs of the integer sums and differences, provided those stay below
    [2^53] too. *)
Theorem GPair_integer_exact (g1 h1 g2 h2 : Z) :
  small_int g1 -> small_int h1 -> small_int g2 -> small_int h2 ->
  (small_int (g1 + g2) -> small_int (h1 + h2) ->
   GPair_add (GPair_of_Z g1 h1) (GPair_of_Z g2 h2) = GPair_of_Z (g1 + g2) (h1 + h2))
  /\ (small_int (g1 - g2) -> small_int (h1 - h2) ->
      GPair_sub (GPair_of_Z g1 h1) (GPair_of_Z g2 h2) = GPair_of_Z (g1 - g2) (h1 - h2)).
Proof.
  intros Hg1 Hh1 Hg2 Hh2. unfold GPair_add, GPair_sub, GPair_of_Z; cbn [grad hess].
  split; intros Hg Hh.
  - now rewrite !dadd_double_of_Z.
  - now rewrite !dsub_double_of_Z.
Qed.

Lemma GPair_integer_exact_witness :
  GPair_add (GPair_of_Z 4 6) (GPair_of_Z 6 4) = GPair_of_Z (4 + 6) (6 + 4)
  /\ GPair_sub (GPair_of_Z 4 6) (GPair_of_Z 6 4) = GPair_of_Z (4 - 6) (6 - 4).
Proof.
  assert (Hs : forall z, -10 <= z <= 10 -> small_int z) by (unfold small_int; lia).
  destruct (GPair_integer_exact 4 6 6 4) as [Hadd Hsub]; try (apply Hs; lia).
  split; [apply Hadd | apply Hsub]; apply Hs; lia.
Defined.

End GPairAlgebra.
